(** * Decentralized virtual memory manager: the sharded page store

    A shallow embedding of [memorymanager.py]: the [Node] class with its
    [allocate_page] and [access_page] methods, the module-level list
    [nodes] with the page distribution loop, the lookup loop of
    [MemoryManagerGUI.access_page], the exclusive-or cipher
    [encrypt]/[decrypt] with its demo handler, and the series drawn by
    [plot_access_stats]. The widgets themselves are not modelled.

    Conventions of the embedding.
    - A Python object that is mutated in place is passed in and returned:
      a method [m(self, x)] becomes [m : Node -> X -> Node * result].
    - The pandas frame [self.memory] has the three columns [page_id],
      [data], [access_count]; its rows are only ever added by
      [allocate_page] under the label [len(self.memory)], so the labels are
      [0 .. len-1] in row order and the frame is a list of rows.
    - Python integers are unbounded: [Z]. The [access_count] column is a
      NumPy [int64] column (pandas infers it when the first row is
      written): its values are in [Z] and its arithmetic wraps around.
    - Page identifiers and payloads are Python strings that are only stored
      and compared: [string]. The cipher looks inside its text, so there a
      text is the list of its code points. *)

From Stdlib Require Import ZArith Lia List Bool.
From stdpp Require Import base option list relations strings gmap sorting.

Open Scope Z_scope.

(** ** Module 1: the node *)

(** One row of [Node.memory]. *)
Record PageRecord := mkPageRecord {
  page_id : string;
  data : string;
  access_count : Z
}.

(** [Node.__init__] stores [node_id], an empty frame and [memory_size]. *)
Record Node := mkNode {
  node_id : Z;
  memory : list PageRecord;
  memory_size : Z
}.

Definition Node_init (i size : Z) : Node :=
  {| node_id := i; memory := []; memory_size := size |}.

(** [len(self.memory)] *)
Definition len (n : Node) : Z := Z.of_nat (length (memory n)).

Definition set_memory (n : Node) (m : list PageRecord) : Node :=
  {| node_id := node_id n; memory := m; memory_size := memory_size n |}.

(** [Node.allocate_page]: the row is written at label [len(self.memory)],
    which is one past the last label, so it is appended. *)
Definition allocate_page (n : Node) (pid dat : string) : Node * bool :=
  if len n <? memory_size n
  then (set_memory n (memory n ++ [mkPageRecord pid dat 0]), true)
  else (n, false).

(** [self.memory['page_id'] == page_id], row by row. *)
Definition is_page (pid : string) (r : PageRecord) : bool :=
  String.eqb (page_id r) pid.

(** The range of an [int64]. *)
Definition int64_min : Z := - 0x8000000000000000.
Definition int64_max : Z := 0x7FFFFFFFFFFFFFFF.

Definition is_int64 (z : Z) : Prop := int64_min <= z <= int64_max.

(** An integer result stored in an [int64]: reduced modulo [2^64] into
    the range, so [int64_max + 1] is stored as [int64_min]. *)
Definition wrap64 (z : Z) : Z :=
  (z - int64_min) `mod` 0x10000000000000000 + int64_min.

(** [self.memory.loc[page.index, 'access_count'] += 1] adds one in every
    row whose label is in [page.index], that is, in every selected row.
    The column is [int64], so the sum is stored wrapped. *)
Definition bump (pid : string) (r : PageRecord) : PageRecord :=
  if is_page pid r
  then mkPageRecord (page_id r) (data r) (wrap64 (access_count r + 1))
  else r.

(** [Node.access_page]: [page] is the sub-frame of the selected rows;
    [page.iloc[0]] is its first row, read before the update reaches
    [self.memory] ([page] is a copy). [None] is the page fault. *)
Definition access_page (n : Node) (pid : string) : Node * option string :=
  let page := List.filter (is_page pid) (memory n) in
  match page with
  | [] => (n, None)
  | r0 :: _ => (set_memory n (List.map (bump pid) (memory n)), Some (data r0))
  end.

(** ** The cluster: the list [nodes] *)

(** [nodes = [Node(i, 3) for i in range(3)]] *)
Definition nodes_init : list Node :=
  List.map (fun i => Node_init i 3) [0; 1; 2].

(** What [MemoryManagerGUI.access_page] writes to its result label. *)
Inductive lookup_result :=
| Found (nid : Z) (dat : string)
| PageFault.

(** [MemoryManagerGUI.access_page]: the loop [for node in nodes], left
    by [return] at the first node whose [access_page] is not [None]. *)
Fixpoint gui_access_page (nodes : list Node) (pid : string)
  : list Node * lookup_result :=
  match nodes with
  | [] => ([], PageFault)
  | node :: rest =>
      match access_page node pid with
      | (node', Some dat) => (node' :: rest, Found (node_id node) dat)
      | (node', None) =>
          let '(rest', res) := gui_access_page rest pid in
          (node' :: rest', res)
      end
  end.

Section Distribution.

(** Python's built-in [hash] on strings: a function fixed for the life of
    the process (it is salted per process), with integer values. *)
Variable hash : string -> Z.

(** [node_idx = hash(page_id) % 3]; Python's [%] with a positive modulus
    is the floor remainder, as [Z.modulo]. *)
Definition node_idx (pid : string) : Z := hash pid `mod` 3.

(** Body of the distribution loop for one [(page_id, data)]:
    [nodes[node_idx].allocate_page(page_id, data)]. The flag is the value
    of that call; the loop prints its "full" message exactly when it is
    [false]. [None] is the [IndexError] of [nodes[node_idx]]. *)
Definition distribute_page (nodes : list Node) (pid dat : string)
  : option (list Node * bool) :=
  let i := Z.to_nat (node_idx pid) in
  match nodes !! i with
  | Some node =>
      let '(node', ok) := allocate_page node pid dat in
      Some (<[i := node']> nodes, ok)
  | None => None
  end.

(** [for page_id, data in pages: ...]; the flags are collected in the
    order of the pages. *)
Fixpoint distribute (nodes : list Node) (pages : list (string * string))
  : option (list Node * list bool) :=
  match pages with
  | [] => Some (nodes, [])
  | (pid, dat) :: rest =>
      match distribute_page nodes pid dat with
      | Some (nodes', ok) =>
          match distribute nodes' rest with
          | Some (nodes'', oks) => Some (nodes'', ok :: oks)
          | None => None
          end
      | None => None
      end
  end.

(** A call made on the cluster: an allocation as in the distribution loop
    or a lookup as in the GUI. *)
Inductive call :=
| Allocate (pid dat : string)
| Access (pid : string).

Definition do_call (nodes : list Node) (c : call) : option (list Node) :=
  match c with
  | Allocate pid dat => fst <$> distribute_page nodes pid dat
  | Access pid => Some (fst (gui_access_page nodes pid))
  end.

Fixpoint run (nodes : list Node) (cs : list call) : option (list Node) :=
  match cs with
  | [] => Some nodes
  | c :: rest =>
      match do_call nodes c with
      | Some nodes' => run nodes' rest
      | None => None
      end
  end.

End Distribution.

(** The module distributes [pages = [(f'page_{i}', f'data_{i}') ...]]. *)
Definition pages : list (string * string) :=
  List.map (fun d => ("page_" +:+ d, "data_" +:+ d))
    ["0"; "1"; "2"; "3"; "4"; "5"; "6"; "7"; "8"; "9"]%string.

(** ** Module 2: the cipher *)

(** A Python [str]: its code points, each in [0 .. 0x10FFFF]. *)
Definition text := list Z.

Definition surrogate (c : Z) : bool := (0xD800 <=? c) && (c <=? 0xDFFF).

(** A code point that has a UTF-8 encoding. *)
Definition scalar (c : Z) : Prop :=
  0 <= c < 0x110000 /\ surrogate c = false.

(** [str.encode()] on one code point: UTF-8, error handler [strict]. A
    surrogate raises [UnicodeEncodeError]: [None]. *)
Definition encode_point (c : Z) : option (list Z) :=
  if c <? 0 then None
  else if c <? 0x80 then Some [c]
  else if c <? 0x800 then Some [0xC0 + c / 64; 0x80 + c `mod` 64]
  else if c <? 0x10000 then
    if surrogate c then None
    else Some [0xE0 + c / 4096; 0x80 + (c / 64) `mod` 64; 0x80 + c `mod` 64]
  else if c <? 0x110000 then
    Some [0xF0 + c / 262144; 0x80 + (c / 4096) `mod` 64;
          0x80 + (c / 64) `mod` 64; 0x80 + c `mod` 64]
  else None.

(** [data.encode()] *)
Fixpoint str_encode (t : text) : option (list Z) :=
  match t with
  | [] => Some []
  | c :: rest =>
      match encode_point c, str_encode rest with
      | Some bs, Some bs' => Some (bs ++ bs')
      | _, _ => None
      end
  end.

(** A continuation byte [10xxxxxx]. *)
Definition continuation (b : Z) : bool := (0x80 <=? b) && (b <? 0xC0).

(** [bytes.decode()]: UTF-8, error handler [strict]. Truncated sequences,
    stray continuation bytes, overlong forms, surrogates and values above
    [0x10FFFF] raise [UnicodeDecodeError]: [None]. *)
Fixpoint bytes_decode (bs : list Z) : option text :=
  match bs with
  | [] => Some []
  | b0 :: r0 =>
      if (0 <=? b0) && (b0 <? 0x80) then cons b0 <$> bytes_decode r0
      else if (0xC2 <=? b0) && (b0 <? 0xE0) then
        match r0 with
        | b1 :: r1 =>
            if continuation b1
            then cons ((b0 - 0xC0) * 64 + (b1 - 0x80)) <$> bytes_decode r1
            else None
        | _ => None
        end
      else if (0xE0 <=? b0) && (b0 <? 0xF0) then
        match r0 with
        | b1 :: b2 :: r2 =>
            let c := (b0 - 0xE0) * 4096 + (b1 - 0x80) * 64 + (b2 - 0x80) in
            if continuation b1 && continuation b2
               && (0x800 <=? c) && negb (surrogate c)
            then cons c <$> bytes_decode r2
            else None
        | _ => None
        end
      else if (0xF0 <=? b0) && (b0 <? 0xF5) then
        match r0 with
        | b1 :: b2 :: b3 :: r3 =>
            let c := (b0 - 0xF0) * 262144 + (b1 - 0x80) * 4096
                     + (b2 - 0x80) * 64 + (b3 - 0x80) in
            if continuation b1 && continuation b2 && continuation b3
               && (0x10000 <=? c) && (c <? 0x110000)
            then cons c <$> bytes_decode r3
            else None
        | _ => None
        end
      else None
  end.

(** An element stored with [dtype=np.uint8], or given to [bytes(...)]:
    outside [0 .. 255] the conversion raises ([OverflowError] for the
    array, [ValueError] for [bytes]). *)
Definition uint8 (v : Z) : option Z :=
  if (0 <=? v) && (v <? 256) then Some v else None.

Fixpoint uint8_all (vs : list Z) : option (list Z) :=
  match vs with
  | [] => Some []
  | v :: rest =>
      match uint8 v, uint8_all rest with
      | Some b, Some bs => Some (b :: bs)
      | _, _ => None
      end
  end.

(** [key=0x55] *)
Definition default_key : Z := 0x55.

(** [encrypt]: [np.array([b ^ key for b in data_bytes], dtype=np.uint8)]
    and [tobytes()], which lists the array's elements. *)
Definition encrypt (dat : text) (key : Z) : option (list Z) :=
  match str_encode dat with
  | Some data_bytes => uint8_all (List.map (fun b => Z.lxor b key) data_bytes)
  | None => None
  end.

(** [decrypt]: [np.frombuffer] lists the bytes again;
    [bytes([b ^ key for b in decrypted])] and [decode()]. *)
Definition decrypt (encrypted_data : list Z) (key : Z) : option text :=
  match uint8_all (List.map (fun b => Z.lxor b key) encrypted_data) with
  | Some bs => bytes_decode bs
  | None => None
  end.

(** An element of a [bytes] object. *)
Definition is_byte (b : Z) : Prop := 0 <= b < 256.

(** [MemoryManagerGUI.demo_security]: the entry's text is encrypted and
    the result decrypted, both with the default key; the label shows the
    three values [data], [encrypted] and [decrypted]. [None] when one of
    the two calls raises. *)
Definition demo_security (dat : text) : option (text * list Z * text) :=
  match encrypt dat default_key with
  | Some encrypted =>
      match decrypt encrypted default_key with
      | Some decrypted => Some (dat, encrypted, decrypted)
      | None => None
      end
  | None => None
  end.

(** A code point of a Python [str]. *)
Definition code_point (c : Z) : Prop := 0 <= c < 0x110000.

(** ** Module 3: monitoring *)

(** [stats.groupby('page_id')['access_count'].sum()] on the rows [stats]:
    a series with one entry per identifier that occurs, its value the sum
    of the access counts of the rows carrying that identifier. *)
Definition groupby_sum (stats : list PageRecord) : gmap string Z :=
  foldr (fun r m =>
           <[page_id r := access_count r + default 0 (m !! page_id r)]> m)
        ∅ stats.

(** [.sort_values()]: the entries of the series in ascending order of
    their values. The order of entries with equal values is left to the
    sorting routine (the default is a quicksort, which is not stable), so
    every ascending arrangement is admitted. *)
Definition sort_values (s : gmap string Z) (out : list (string * Z)) : Prop :=
  out ≡ₚ map_to_list s /\ Sorted (fun a b => snd a <= snd b) out.

(** [plot_access_stats]: [stats] is the concatenation of the nodes'
    frames, [access_counts] the sorted sums, drawn as one bar per entry
    from left to right. Plotting a series without entries raises, so
    there is a figure only when the cluster holds a row. *)
Definition plot_access_stats (nodes : list Node)
  (access_counts : list (string * Z)) : Prop :=
  List.concat (List.map memory nodes) <> [] /\
  sort_values (groupby_sum (List.concat (List.map memory nodes)))
    access_counts.

(** ** Predicates on cluster states and on runs of the loop *)

(** The capacity bound of one node: [len(self.memory) <= self.memory_size]. *)
Definition within_capacity (n : Node) : Prop := len n <= memory_size n.

(** Every row sits in the node its identifier is distributed to. *)
Definition routed (hash : string -> Z) (nodes : list Node) : Prop :=
  forall (i : nat) n r,
    nodes !! i = Some n -> In r (memory n) ->
    Z.to_nat (node_idx hash (page_id r)) = i.

(** The [(page_id, data)] pairs of the loop whose [allocate_page] returned
    [True], in the order of the loop. *)
Fixpoint succeeded (pages : list (string * string)) (oks : list bool)
  : list (string * string) :=
  match pages, oks with
  | p :: pages', true :: oks' => p :: succeeded pages' oks'
  | _ :: pages', false :: oks' => succeeded pages' oks'
  | _, _ => []
  end.

(** Those of them that carry the identifier [pid]. *)
Definition succeeded_for (pid : string) (pages : list (string * string))
  (oks : list bool) : list (string * string) :=
  List.filter (fun p => String.eqb (fst p) pid) (succeeded pages oks).

(** The row that [allocate_page] writes for a pair. *)
Definition new_row (p : string * string) : PageRecord :=
  mkPageRecord (fst p) (snd p) 0.

(** All rows of the cluster, node after node. *)
Definition all_rows (nodes : list Node) : list PageRecord :=
  List.concat (List.map memory nodes).

(** What one call on the cluster can do to the node at index [i]: nothing,
    an [access_page], or an [allocate_page] of a page distributed to [i]. *)
Inductive node_step (hash : string -> Z) (i : nat) : Node -> Node -> Prop :=
| step_none n : node_step hash i n n
| step_access n pid : node_step hash i n (fst (access_page n pid))
| step_allocate n pid dat :
    Z.to_nat (node_idx hash pid) = i ->
    node_step hash i n (fst (allocate_page n pid dat)).

(** The rows of a node at index [i] all belong there. *)
Definition rows_routed (hash : string -> Z) (i : nat) (n : Node) : Prop :=
  forall r, In r (memory n) -> Z.to_nat (node_idx hash (page_id r)) = i.

(** [hash(page_id) % 3 == i] for the identifier of a pair. *)
Definition sent_to (hash : string -> Z) (i : nat) (p : string * string) : bool :=
  Nat.eqb (Z.to_nat (node_idx hash (fst p))) i.

(** Whether a call is a lookup, and how many calls of a sequence are. *)
Definition is_access (c : call) : bool :=
  match c with
  | Access _ => true
  | Allocate _ _ => false
  end.

Definition lookups_in (cs : list call) : Z :=
  Z.of_nat (length (List.filter is_access cs)).

(** [n'] is a later state of [n], reached with at most [k] lookups, in
    which nothing was lost: the same [node_id] and [memory_size], and
    every row of [n] still at its position with its [page_id] and
    [data]. A count that is an [int64] with room for [k] more has not
    dropped and has grown by at most [k]; a count without that room may
    have wrapped. *)
Definition keeps (k : Z) (n n' : Node) : Prop :=
  node_id n' = node_id n /\
  memory_size n' = memory_size n /\
  forall (j : nat) r, memory n !! j = Some r ->
    exists r', memory n' !! j = Some r' /\
      page_id r' = page_id r /\ data r' = data r /\
      (int64_min <= access_count r ->
       access_count r + k <= int64_max ->
       access_count r <= access_count r' <= access_count r + k).

(** How often the identifier [q] occurs in a list of looked-up
    identifiers. *)
Definition occurrences (q : string) (qs : list string) : Z :=
  Z.of_nat (length (List.filter (String.eqb q) qs)).

(** A row after the lookups [qs] have each added one, in [int64], to the
    rows carrying their identifier. *)
Definition looked_up (qs : list string) (r : PageRecord) : PageRecord :=
  mkPageRecord (page_id r) (data r)
    (wrap64 (access_count r + occurrences (page_id r) qs)).

(** Every access count in the cluster is a value of the [int64] column. *)
Definition int64_counts (nodes : list Node) : Prop :=
  forall (i : nat) n r,
    nodes !! i = Some n -> In r (memory n) -> is_int64 (access_count r).

(** The sum of the access counts of the rows that carry [q]. *)
Definition count_sum (q : string) (rows : list PageRecord) : Z :=
  foldr Z.add 0 (List.map access_count (List.filter (is_page q) rows)).

(** ** Sample states

    Concrete nodes, a concrete hash and concrete texts on which the
    statements below are evaluated. *)

(** A stand-in for Python's [hash]: the sum of the character codes. *)
Fixpoint hash_sum (s : string) : Z :=
  match s with
  | EmptyString => 0
  | String a s' => Z.of_N (Ascii.N_of_ascii a) + hash_sum s'
  end.

(** The same identifier allocated twice, with different data. *)
Definition pages_dup : list (string * string) :=
  [("a", "x"); ("a", "y")]%string.

(** The module's loop followed by lookups. *)
Definition calls_sample : list call :=
  List.map (fun p => Allocate (fst p) (snd p)) pages
  ++ [Access "page_0"; Access "page_0"; Access "missing"]%string.

(** The text [h], [e acute], the euro sign and an emoji: one code point
    of each encoded length. *)
Definition text_sample : text := [104; 233; 8364; 128512].

(** The cluster after the module's loop, under [hash_sum]. *)
Definition nodes_loaded : list Node :=
  match distribute hash_sum nodes_init pages with
  | Some (nodes', _) => nodes'
  | None => []
  end.

(** Identifiers looked up in a session. *)
Definition lookups_sample : list string :=
  ["page_0"; "page_4"; "page_0"; "missing"]%string.

(** [encrypt('h\u00e9\u20ac\U0001f600')] under the default key. *)
Definition cipher_sample : list Z :=
  [61; 150; 252; 183; 215; 249; 165; 202; 205; 213].

(** A text with a lone surrogate. *)
Definition text_surrogate : text := [104; 0xD800].

(** A node that holds the same identifier twice, as after
    [allocate_page('a', 'x')] and [allocate_page('a', 'y')]. *)
Definition node_dup : Node :=
  fst (allocate_page (fst (allocate_page (Node_init 0 3) "a" "x")) "a" "y").

(** A node whose only row has been looked up [2^63 - 1] times. *)
Definition node_saturated : Node :=
  {| node_id := 0;
     memory := [mkPageRecord "page_0" "data_0" int64_max];
     memory_size := 3 |}.

(** A node at capacity, holding three different pages. *)
Definition node_full : Node :=
  {| node_id := 1;
     memory := [mkPageRecord "page_1" "data_1" 0;
                mkPageRecord "page_4" "data_4" 2;
                mkPageRecord "page_7" "data_7" 0];
     memory_size := 3 |}.

(** * Properties of the node *)

Section NodeFacts.

Implicit Types (n : Node) (r : PageRecord) (pid dat : string).

Lemma is_page_true pid r : is_page pid r = true <-> page_id r = pid.
Proof. unfold is_page. apply String.eqb_eq. Qed.

Lemma is_page_false pid r : is_page pid r = false <-> page_id r <> pid.
Proof. unfold is_page. apply String.eqb_neq. Qed.

Lemma bump_page_id pid r : page_id (bump pid r) = page_id r.
Proof. unfold bump. now destruct (is_page pid r). Qed.

Lemma bump_data pid r : data (bump pid r) = data r.
Proof. unfold bump. now destruct (is_page pid r). Qed.

Lemma bump_hit pid r :
  page_id r = pid -> access_count (bump pid r) = wrap64 (access_count r + 1).
Proof.
  intros H. unfold bump. apply is_page_true in H. now rewrite H.
Qed.

(** Inside the range nothing wraps. *)
Lemma wrap64_small z : is_int64 z -> wrap64 z = z.
Proof.
  unfold is_int64, wrap64, int64_min, int64_max. intros H.
  rewrite Z.mod_small; lia.
Qed.

Lemma wrap64_range z : is_int64 (wrap64 z).
Proof.
  unfold is_int64, wrap64, int64_min, int64_max.
  pose proof (Z.mod_pos_bound (z - - 0x8000000000000000) 0x10000000000000000).
  lia.
Qed.

(** Wrapping an inner sum first does not change the wrapped outer sum. *)
Lemma wrap64_add_l a b : wrap64 (wrap64 a + b) = wrap64 (a + b).
Proof.
  unfold wrap64, int64_min.
  replace ((a - - 0x8000000000000000) `mod` 0x10000000000000000
           + - 0x8000000000000000 + b - - 0x8000000000000000)
    with ((a - - 0x8000000000000000) `mod` 0x10000000000000000 + b) by lia.
  replace (a + b - - 0x8000000000000000)
    with ((a - - 0x8000000000000000) + b) by lia.
  now rewrite Zplus_mod_idemp_l.
Qed.

Lemma bump_hit_small pid r :
  page_id r = pid ->
  int64_min <= access_count r < int64_max ->
  access_count (bump pid r) = access_count r + 1.
Proof.
  intros H Hc. rewrite (bump_hit pid r H). apply wrap64_small.
  unfold is_int64. lia.
Qed.

Lemma bump_miss pid r : page_id r <> pid -> bump pid r = r.
Proof.
  intros H. unfold bump. apply is_page_false in H. now rewrite H.
Qed.

(** The selection is empty exactly when no row carries the identifier. *)
Lemma filter_is_page_nil pid (m : list PageRecord) :
  List.filter (is_page pid) m = [] <->
  Forall (fun r => page_id r <> pid) m.
Proof.
  induction m as [|r m IH]; simpl.
  - split; [constructor | reflexivity].
  - destruct (is_page pid r) eqn:E.
    + split; [discriminate |].
      intros H. inversion H; subst. apply is_page_true in E. contradiction.
    + rewrite IH. apply is_page_false in E.
      split; [now constructor | intros H; now inversion H].
Qed.

Lemma map_bump_miss pid (m : list PageRecord) :
  Forall (fun r => page_id r <> pid) m -> List.map (bump pid) m = m.
Proof.
  induction 1 as [|r m Hr _ IH]; simpl; [reflexivity |].
  now rewrite bump_miss, IH.
Qed.

(** The two outcomes of [access_page], read off the selection. *)
Lemma access_page_miss n pid :
  Forall (fun r => page_id r <> pid) (memory n) ->
  access_page n pid = (n, None).
Proof.
  intros H. apply filter_is_page_nil in H. unfold access_page. now rewrite H.
Qed.

Lemma access_page_hit n pid r0 rest :
  List.filter (is_page pid) (memory n) = r0 :: rest ->
  access_page n pid
  = (set_memory n (List.map (bump pid) (memory n)), Some (data r0)).
Proof. intros H. unfold access_page. now rewrite H. Qed.

Lemma access_page_cases n pid :
  (access_page n pid = (n, None) /\
   Forall (fun r => page_id r <> pid) (memory n))
  \/ (exists r0 rest,
        List.filter (is_page pid) (memory n) = r0 :: rest /\
        access_page n pid
        = (set_memory n (List.map (bump pid) (memory n)), Some (data r0))).
Proof.
  destruct (List.filter (is_page pid) (memory n)) as [|r0 rest] eqn:E.
  - left. apply filter_is_page_nil in E. split; [|assumption].
    now apply access_page_miss.
  - right. exists r0, rest. split; [reflexivity |].
    now apply (access_page_hit n pid r0 rest).
Qed.

(** Whatever the outcome, the frame after the call is the old one with
    [bump] applied to every row. *)
Lemma access_page_memory n pid :
  memory (fst (access_page n pid)) = List.map (bump pid) (memory n).
Proof.
  destruct (access_page_cases n pid) as [[-> H] | (r0 & rest & _ & ->)]; simpl.
  - symmetry. now apply map_bump_miss.
  - reflexivity.
Qed.

Lemma access_page_node_id n pid : node_id (fst (access_page n pid)) = node_id n.
Proof.
  destruct (access_page_cases n pid) as [[-> _] | (? & ? & _ & ->)]; reflexivity.
Qed.

Lemma access_page_memory_size n pid :
  memory_size (fst (access_page n pid)) = memory_size n.
Proof.
  destruct (access_page_cases n pid) as [[-> _] | (? & ? & _ & ->)]; reflexivity.
Qed.

Lemma access_page_len n pid : len (fst (access_page n pid)) = len n.
Proof.
  unfold len. now rewrite access_page_memory, length_map.
Qed.

(** The two outcomes of [allocate_page]. *)
Lemma allocate_page_below n pid dat :
  len n < memory_size n ->
  allocate_page n pid dat
  = (set_memory n (memory n ++ [mkPageRecord pid dat 0]), true).
Proof.
  intros H. unfold allocate_page. apply Z.ltb_lt in H. now rewrite H.
Qed.

Lemma allocate_page_full n pid dat :
  memory_size n <= len n -> allocate_page n pid dat = (n, false).
Proof.
  intros H. unfold allocate_page. apply Z.ltb_ge in H. now rewrite H.
Qed.

End NodeFacts.

Section NodeSpec.

Implicit Types (n : Node) (r : PageRecord) (pid dat : string).

(** The head of a selection is the first row that satisfies the test. *)
Lemma filter_head_first (p : PageRecord -> bool) (m : list PageRecord) r0 rest :
  List.filter p m = r0 :: rest ->
  exists k : nat,
    m !! k = Some r0 /\ p r0 = true /\
    forall (j : nat) r, (j < k)%nat -> m !! j = Some r -> p r = false.
Proof.
  induction m as [|r m IH]; simpl; [discriminate |].
  destruct (p r) eqn:E.
  - intros [= -> _]. exists 0%nat. split; [reflexivity |]. split; [assumption |].
    intros j r' Hj. lia.
  - intros H. destruct (IH H) as (k & Hk & Hp & Hbefore).
    exists (S k). split; [assumption |]. split; [assumption |].
    intros [|j] r' Hj Hr'; simpl in Hr'.
    + now injection Hr' as <-.
    + apply (Hbefore j); [lia | assumption].
Qed.

Lemma lookup_map_bump pid (m : list PageRecord) (i : nat) r :
  m !! i = Some r -> List.map (bump pid) m !! i = Some (bump pid r).
Proof.
  intros H. change (List.map (bump pid) m) with (bump pid <$> m).
  now rewrite list_lookup_fmap, H.
Qed.

(** C5: below capacity [allocate_page] returns [True] and appends exactly
    the row [(page_id, data, 0)] at the end, the node being otherwise the
    same; at capacity it returns [False] and the node is unchanged. *)
Theorem allocate_page_spec n pid dat :
  (len n < memory_size n ->
     snd (allocate_page n pid dat) = true /\
     memory (fst (allocate_page n pid dat))
       = memory n ++ [mkPageRecord pid dat 0] /\
     len (fst (allocate_page n pid dat)) = len n + 1 /\
     node_id (fst (allocate_page n pid dat)) = node_id n /\
     memory_size (fst (allocate_page n pid dat)) = memory_size n)
  /\ (memory_size n <= len n -> allocate_page n pid dat = (n, false)).
Proof.
  split; intros H.
  - rewrite (allocate_page_below n pid dat H). simpl.
    repeat split. unfold len. simpl. rewrite length_app. simpl. lia.
  - now apply allocate_page_full.
Qed.

(** C8 (as the code has it): on a hit [access_page] returns the data of
    the first row carrying the identifier and adds one, in [int64], to
    the access count of every row carrying it: exactly one more when the
    count is an [int64] below the maximum (at the maximum the stored sum
    wraps to the minimum). The count of every row with another
    identifier is as it was; on a miss it returns [None] and the node is
    unchanged. *)
Theorem access_page_counts n pid :
  ((exists r, In r (memory n) /\ page_id r = pid) ->
     (exists (k : nat) r0,
        memory n !! k = Some r0 /\ page_id r0 = pid /\
        (forall (j : nat) r, (j < k)%nat -> memory n !! j = Some r ->
                             page_id r <> pid) /\
        snd (access_page n pid) = Some (data r0)) /\
     (forall (i : nat) r, memory n !! i = Some r ->
        exists r', memory (fst (access_page n pid)) !! i = Some r' /\
          (page_id r = pid ->
             access_count r' = wrap64 (access_count r + 1) /\
             (int64_min <= access_count r < int64_max ->
              access_count r' = access_count r + 1)) /\
          (page_id r <> pid -> access_count r' = access_count r)))
  /\ ((forall r, In r (memory n) -> page_id r <> pid) ->
      access_page n pid = (n, None)).
Proof.
  split.
  - intros (r & Hin & Hr).
    destruct (access_page_cases n pid) as [[_ Hmiss] | (r0 & rest & Hsel & Hacc)].
    { rewrite List.Forall_forall in Hmiss. now apply Hmiss in Hin. }
    split.
    + destruct (filter_head_first _ _ _ _ Hsel) as (k & Hk & Hp & Hbefore).
      exists k, r0. split; [assumption |].
      split; [now apply is_page_true |].
      split; [| now rewrite Hacc].
      intros j r' Hj Hr'. apply is_page_false. now apply (Hbefore j).
    + intros i r' Hi. exists (bump pid r').
      rewrite access_page_memory. split; [now apply lookup_map_bump |].
      split; intros Hid.
      * split; [now apply bump_hit | now apply bump_hit_small].
      * now rewrite bump_miss.
  - intros H. apply access_page_miss. now apply List.Forall_forall.
Qed.

(** C10: [access_page] keeps the number of rows, the node's [node_id] and
    [memory_size], and in every row the [page_id] and the [data]; a row
    whose [page_id] differs from the queried one is unchanged altogether,
    so only access counts of rows carrying the queried identifier move. *)
Theorem access_page_frame n pid :
  length (memory (fst (access_page n pid))) = length (memory n) /\
  node_id (fst (access_page n pid)) = node_id n /\
  memory_size (fst (access_page n pid)) = memory_size n /\
  forall (i : nat) r, memory n !! i = Some r ->
    exists r', memory (fst (access_page n pid)) !! i = Some r' /\
      page_id r' = page_id r /\ data r' = data r /\
      (page_id r <> pid -> r' = r).
Proof.
  split; [now rewrite access_page_memory, length_map |].
  split; [apply access_page_node_id |].
  split; [apply access_page_memory_size |].
  intros i r Hi. exists (bump pid r).
  rewrite access_page_memory.
  split; [now apply lookup_map_bump |].
  split; [apply bump_page_id |].
  split; [apply bump_data | apply bump_miss].
Qed.

End NodeSpec.

(** ** The node on concrete states *)

Lemma allocate_page_spec_witness :
  (len (Node_init 0 3) < memory_size (Node_init 0 3) /\
   snd (allocate_page (Node_init 0 3) "page_0" "data_0") = true /\
   memory (fst (allocate_page (Node_init 0 3) "page_0" "data_0"))
     = [mkPageRecord "page_0" "data_0" 0]) /\
  (memory_size node_full <= len node_full /\
   allocate_page node_full "page_9" "data_9" = (node_full, false)).
Proof.
  split.
  - assert (H : len (Node_init 0 3) < memory_size (Node_init 0 3))
      by (vm_compute; reflexivity).
    split; [exact H |].
    destruct (proj1 (allocate_page_spec (Node_init 0 3) "page_0" "data_0") H)
      as (Hok & Hmem & _).
    split; [exact Hok | exact Hmem].
  - assert (H : memory_size node_full <= len node_full)
      by (vm_compute; discriminate).
    split; [exact H |].
    exact (proj2 (allocate_page_spec node_full "page_9" "data_9") H).
Defined.

(** C8 fails as stated: in [node_dup] the first row carrying ["a"] is row
    0, yet the call also moves the access count of row 1. *)
Lemma access_page_first_only_fails :
  (exists r0, memory node_dup !! 0%nat = Some r0 /\ page_id r0 = "a"%string) /\
  ~ (forall (j : nat) r r', j <> 0%nat ->
       memory node_dup !! j = Some r ->
       memory (fst (access_page node_dup "a")) !! j = Some r' ->
       access_count r' = access_count r).
Proof.
  split.
  - eexists. split; reflexivity.
  - intros H.
    specialize (H 1%nat _ _ ltac:(discriminate) eq_refl eq_refl).
    discriminate H.
Qed.

Lemma access_page_counts_witness :
  (exists r, In r (memory node_dup) /\ page_id r = "a"%string) /\
  snd (access_page node_dup "a") = Some "x"%string /\
  List.map access_count (memory (fst (access_page node_dup "a"))) = [1; 1] /\
  (forall r, In r (memory node_full) -> page_id r <> "a"%string) /\
  access_page node_full "a" = (node_full, None).
Proof.
  assert (Hhit : exists r, In r (memory node_dup) /\ page_id r = "a"%string).
  { eexists. split; [left; reflexivity | reflexivity]. }
  assert (Hmiss : forall r, In r (memory node_full) -> page_id r <> "a"%string).
  { intros r [<- | [<- | [<- | []]]]; discriminate. }
  split; [exact Hhit |].
  destruct (proj1 (access_page_counts node_dup "a") Hhit) as [_ _].
  split; [reflexivity |]. split; [reflexivity |].
  split; [exact Hmiss |].
  exact (proj2 (access_page_counts node_full "a") Hmiss).
Defined.

(** * Properties of the cluster *)

Section Lookup.

Implicit Types (n : Node) (nodes : list Node) (pid : string).

Lemma access_page_None n pid :
  snd (access_page n pid) = None -> access_page n pid = (n, None).
Proof.
  destruct (access_page_cases n pid) as [[H _] | (r0 & rest & _ & H)].
  - intros _. exact H.
  - rewrite H. discriminate.
Qed.

Lemma gui_access_page_length nodes pid :
  length (fst (gui_access_page nodes pid)) = length nodes.
Proof.
  induction nodes as [|n nodes IH]; simpl; [reflexivity |].
  destruct (access_page n pid) as [n' [d|]]; simpl; [reflexivity |].
  destruct (gui_access_page nodes pid) as [rest' res]. simpl in *.
  now rewrite IH.
Qed.

(** Every node of the cluster after a lookup is the node before it, or
    that node after its own [access_page]. *)
Lemma gui_access_page_nodes nodes pid (i : nat) n :
  nodes !! i = Some n ->
  fst (gui_access_page nodes pid) !! i = Some n \/
  fst (gui_access_page nodes pid) !! i = Some (fst (access_page n pid)).
Proof.
  revert i. induction nodes as [|m nodes IH]; intros i Hi; [discriminate |].
  simpl. destruct (access_page m pid) as [m' [d|]] eqn:E.
  - destruct i as [|i]; simpl in *.
    + injection Hi as <-. right. now rewrite E.
    + left. exact Hi.
  - destruct (gui_access_page nodes pid) as [rest' res] eqn:G.
    destruct i as [|i]; simpl in *.
    + injection Hi as <-. right. now rewrite E.
    + apply (IH i Hi).
Qed.

Lemma gui_access_page_all_miss nodes pid :
  Forall (fun n => snd (access_page n pid) = None) nodes ->
  gui_access_page nodes pid = (nodes, PageFault).
Proof.
  induction 1 as [|n nodes Hn _ IH]; simpl; [reflexivity |].
  rewrite (access_page_None _ _ Hn), IH. reflexivity.
Qed.

Lemma gui_access_page_first_hit pre n post pid n' dat :
  Forall (fun m => snd (access_page m pid) = None) pre ->
  access_page n pid = (n', Some dat) ->
  gui_access_page (pre ++ n :: post) pid
  = (pre ++ n' :: post, Found (node_id n) dat).
Proof.
  intros Hpre Hn.
  induction Hpre as [|m pre Hm _ IH]; simpl.
  - now rewrite Hn.
  - rewrite (access_page_None _ _ Hm), IH. reflexivity.
Qed.

Lemma gui_access_page_fault nodes pid :
  snd (gui_access_page nodes pid) = PageFault ->
  Forall (fun n => snd (access_page n pid) = None) nodes.
Proof.
  induction nodes as [|n nodes IH]; simpl; [constructor |].
  destruct (access_page n pid) as [n' [d|]] eqn:E; simpl; [discriminate |].
  destruct (gui_access_page nodes pid) as [rest' res]. simpl in *.
  intros ->. constructor; [now rewrite E | now apply IH].
Qed.

(** Either every node answers [None], or there is a first one that does
    not. *)
Lemma first_hit_or_none nodes pid :
  Forall (fun n => snd (access_page n pid) = None) nodes \/
  exists pre n post n' dat,
    nodes = pre ++ n :: post /\
    Forall (fun m => snd (access_page m pid) = None) pre /\
    access_page n pid = (n', Some dat).
Proof.
  induction nodes as [|m nodes IH]; [left; constructor |].
  destruct (access_page m pid) as [m' [d|]] eqn:E.
  - right. exists [], m, nodes, m', d. repeat split; [constructor | exact E].
  - destruct IH as [IH | (pre & n & post & n' & dat & -> & Hpre & Hn)].
    + left. constructor; [now rewrite E | exact IH].
    + right. exists (m :: pre), n, post, n', dat.
      repeat split; [| exact Hn]. constructor; [now rewrite E | exact Hpre].
Qed.

(** C7: the lookup walks the nodes in list order. When the nodes before
    some node all answer [None] and that node answers with data, the
    lookup reports that node's [node_id] and that data, has called
    [access_page] on that node, and has left the nodes after it alone;
    it reports the page fault exactly when every node answers [None],
    and then the cluster is unchanged. One of the two always happens. *)
Theorem gui_access_page_scan nodes pid :
  (forall pre n post n' dat,
     nodes = pre ++ n :: post ->
     Forall (fun m => snd (access_page m pid) = None) pre ->
     access_page n pid = (n', Some dat) ->
     gui_access_page nodes pid = (pre ++ n' :: post, Found (node_id n) dat))
  /\ (snd (gui_access_page nodes pid) = PageFault <->
      Forall (fun n => snd (access_page n pid) = None) nodes)
  /\ (snd (gui_access_page nodes pid) = PageFault ->
      fst (gui_access_page nodes pid) = nodes)
  /\ (snd (gui_access_page nodes pid) = PageFault \/
      exists pre n post n' dat,
        nodes = pre ++ n :: post /\
        Forall (fun m => snd (access_page m pid) = None) pre /\
        access_page n pid = (n', Some dat)).
Proof.
  split; [| split; [| split]].
  - intros pre n post n' dat -> Hpre Hn.
    now apply gui_access_page_first_hit.
  - split.
    + apply gui_access_page_fault.
    + intros H. now rewrite (gui_access_page_all_miss _ _ H).
  - intros H. apply gui_access_page_fault in H.
    now rewrite (gui_access_page_all_miss _ _ H).
  - destruct (first_hit_or_none nodes pid) as [H | H]; [left | now right].
    now rewrite (gui_access_page_all_miss _ _ H).
Qed.

End Lookup.

Section DistributionFacts.

Variable hash : string -> Z.

Implicit Types (n : Node) (nodes : list Node) (pid dat : string).

Lemma node_idx_range pid : 0 <= node_idx hash pid < 3.
Proof. unfold node_idx. apply Z.mod_pos_bound. lia. Qed.

Lemma node_idx_lt pid : (Z.to_nat (node_idx hash pid) < 3)%nat.
Proof. pose proof (node_idx_range pid). lia. Qed.

Lemma node_idx_nat pid : Z.of_nat (Z.to_nat (node_idx hash pid)) = node_idx hash pid.
Proof. pose proof (node_idx_range pid). lia. Qed.

(** The one step of the loop, unfolded at the node it is sent to. *)
Lemma distribute_page_at nodes pid dat n :
  nodes !! Z.to_nat (node_idx hash pid) = Some n ->
  distribute_page hash nodes pid dat
  = Some (<[Z.to_nat (node_idx hash pid) := fst (allocate_page n pid dat)]> nodes,
          snd (allocate_page n pid dat)).
Proof.
  intros H. unfold distribute_page. rewrite H.
  now destruct (allocate_page n pid dat).
Qed.

Lemma target_exists nodes pid :
  length nodes = 3%nat ->
  exists n, nodes !! Z.to_nat (node_idx hash pid) = Some n.
Proof.
  intros H. apply lookup_lt_is_Some_2. rewrite H. apply node_idx_lt.
Qed.

Lemma distribute_page_inv nodes pid dat nodes' ok :
  distribute_page hash nodes pid dat = Some (nodes', ok) ->
  exists n,
    nodes !! Z.to_nat (node_idx hash pid) = Some n /\
    nodes' = <[Z.to_nat (node_idx hash pid) := fst (allocate_page n pid dat)]> nodes /\
    ok = snd (allocate_page n pid dat).
Proof.
  intros H.
  destruct (nodes !! Z.to_nat (node_idx hash pid)) as [n|] eqn:E.
  - rewrite (distribute_page_at _ _ _ _ E) in H. injection H as <- <-.
    now exists n.
  - unfold distribute_page in H. now rewrite E in H.
Qed.

(** What [allocate_page] leaves in the frame, in both outcomes. *)
Lemma allocate_page_memory n pid dat :
  memory (fst (allocate_page n pid dat))
  = memory n ++ (if snd (allocate_page n pid dat)
                 then [mkPageRecord pid dat 0] else []).
Proof.
  unfold allocate_page. destruct (len n <? memory_size n); simpl.
  - reflexivity.
  - now rewrite app_nil_r.
Qed.

Lemma allocate_page_node_id n pid dat :
  node_id (fst (allocate_page n pid dat)) = node_id n.
Proof. unfold allocate_page. now destruct (len n <? memory_size n). Qed.

Lemma allocate_page_memory_size n pid dat :
  memory_size (fst (allocate_page n pid dat)) = memory_size n.
Proof. unfold allocate_page. now destruct (len n <? memory_size n). Qed.

Lemma distribute_page_total nodes pid dat :
  length nodes = 3%nat ->
  exists nodes' ok,
    distribute_page hash nodes pid dat = Some (nodes', ok) /\
    length nodes' = 3%nat.
Proof.
  intros Hlen. destruct (target_exists nodes pid Hlen) as [n Hn].
  rewrite (distribute_page_at nodes pid dat n Hn).
  do 2 eexists. split; [reflexivity |]. now rewrite length_insert.
Qed.

(** C6: one step of the distribution loop calls [allocate_page] on the
    node at index [hash(page_id) % 3] and on no other: the step's flag and
    the new state of that node are those of this one call, every other
    node of the cluster is the same object in the same state, and when the
    node is full the flag is [False] and the whole cluster is unchanged. *)
Theorem distribute_page_single_node nodes pid dat :
  length nodes = 3%nat ->
  exists n nodes' ok,
    nodes !! Z.to_nat (node_idx hash pid) = Some n /\
    distribute_page hash nodes pid dat = Some (nodes', ok) /\
    length nodes' = length nodes /\
    nodes' !! Z.to_nat (node_idx hash pid)
      = Some (fst (allocate_page n pid dat)) /\
    ok = snd (allocate_page n pid dat) /\
    (forall j : nat, j <> Z.to_nat (node_idx hash pid) ->
       nodes' !! j = nodes !! j) /\
    (memory_size n <= len n -> ok = false /\ nodes' = nodes).
Proof.
  intros Hlen. destruct (target_exists nodes pid Hlen) as [n Hn].
  exists n. eexists. eexists. split; [exact Hn |].
  split; [exact (distribute_page_at nodes pid dat n Hn) |].
  split; [apply length_insert |].
  split; [apply list_lookup_insert_eq; now apply lookup_lt_Some in Hn |].
  split; [reflexivity |].
  split.
  - intros j Hj. apply list_lookup_insert_ne. congruence.
  - intros Hfull. rewrite (allocate_page_full _ _ _ Hfull). simpl.
    split; [reflexivity |]. now apply list_insert_id.
Qed.

End DistributionFacts.

Section Runs.

Variable hash : string -> Z.

Implicit Types (n : Node) (nodes : list Node) (pid dat : string).

Lemma distribute_page_steps nodes pid dat nodes' ok :
  distribute_page hash nodes pid dat = Some (nodes', ok) ->
  length nodes' = length nodes /\
  forall (i : nat) n, nodes !! i = Some n ->
    exists n', nodes' !! i = Some n' /\ node_step hash i n n'.
Proof.
  intros H. apply distribute_page_inv in H as (m & Hm & -> & _).
  split; [apply length_insert |].
  intros i n Hi.
  destruct (decide (i = Z.to_nat (node_idx hash pid))) as [-> | Hne].
  - rewrite Hm in Hi. injection Hi as ->.
    exists (fst (allocate_page n pid dat)). split.
    + apply list_lookup_insert_eq. now apply lookup_lt_Some in Hm.
    + now constructor.
  - exists n. split; [| constructor].
    rewrite list_lookup_insert_ne; [exact Hi | congruence].
Qed.

Lemma gui_access_page_steps nodes pid :
  forall (i : nat) n, nodes !! i = Some n ->
    exists n', fst (gui_access_page nodes pid) !! i = Some n' /\
               node_step hash i n n'.
Proof.
  intros i n Hi.
  destruct (gui_access_page_nodes nodes pid i n Hi) as [H | H].
  - exists n. split; [exact H | constructor].
  - eexists. split; [exact H | constructor].
Qed.

Lemma do_call_steps nodes c nodes' :
  do_call hash nodes c = Some nodes' ->
  length nodes' = length nodes /\
  forall (i : nat) n, nodes !! i = Some n ->
    exists n', nodes' !! i = Some n' /\ node_step hash i n n'.
Proof.
  destruct c as [pid dat | pid]; simpl.
  - destruct (distribute_page hash nodes pid dat) as [[nodes1 ok]|] eqn:E;
      [| discriminate].
    simpl. intros [= <-]. now apply distribute_page_steps in E.
  - intros [= <-]. split.
    + apply gui_access_page_length.
    + apply gui_access_page_steps.
Qed.

Lemma do_call_total nodes c :
  length nodes = 3%nat -> exists nodes', do_call hash nodes c = Some nodes'.
Proof.
  intros Hlen. destruct c as [pid dat | pid]; simpl.
  - destruct (distribute_page_total hash nodes pid dat Hlen)
      as (nodes' & ok & -> & _).
    now exists nodes'.
  - now eexists.
Qed.

Lemma run_total nodes cs :
  length nodes = 3%nat -> exists nodes', run hash nodes cs = Some nodes'.
Proof.
  revert nodes. induction cs as [|c cs IH]; intros nodes Hlen; simpl.
  - now exists nodes.
  - destruct (do_call_total nodes c Hlen) as [nodes1 H1]. rewrite H1.
    apply IH. apply do_call_steps in H1 as [-> _]. exact Hlen.
Qed.

Lemma run_steps nodes cs nodes' :
  run hash nodes cs = Some nodes' ->
  length nodes' = length nodes /\
  forall (i : nat) n, nodes !! i = Some n ->
    exists n', nodes' !! i = Some n' /\ rtc (node_step hash i) n n'.
Proof.
  revert nodes. induction cs as [|c cs IH]; intros nodes; simpl.
  - intros [= <-]. split; [reflexivity |].
    intros i n Hi. now exists n.
  - destruct (do_call hash nodes c) as [nodes1|] eqn:E; [| discriminate].
    intros H. apply do_call_steps in E as [Hlen1 Hstep1].
    apply IH in H as [Hlen Hsteps].
    split; [congruence |].
    intros i n Hi.
    destruct (Hstep1 i n Hi) as (n1 & Hn1 & Hs1).
    destruct (Hsteps i n1 Hn1) as (n' & Hn' & Hs).
    exists n'. split; [exact Hn' |]. now apply rtc_l with n1.
Qed.

(** Node-level invariants of a step. *)
Lemma node_step_within (i : nat) n n' :
  node_step hash i n n' -> within_capacity n -> within_capacity n'.
Proof.
  unfold within_capacity. intros [m | m pid | m pid dat _] H.
  - exact H.
  - now rewrite access_page_len, access_page_memory_size.
  - destruct (Z.ltb_spec (len m) (memory_size m)) as [Hlt | Hge].
    + rewrite (allocate_page_below m pid dat Hlt). unfold len in *. simpl.
      rewrite length_app. simpl. lia.
    + now rewrite (allocate_page_full m pid dat Hge).
Qed.

Lemma node_step_fixed (i : nat) n n' :
  node_step hash i n n' ->
  memory_size n' = memory_size n /\ node_id n' = node_id n.
Proof.
  intros [m | m pid | m pid dat _].
  - now split.
  - split; [apply access_page_memory_size | apply access_page_node_id].
  - split; [apply allocate_page_memory_size | apply allocate_page_node_id].
Qed.

Lemma node_step_routed (i : nat) n n' :
  node_step hash i n n' -> rows_routed hash i n -> rows_routed hash i n'.
Proof.
  unfold rows_routed. intros [m | m pid | m pid dat Hi] H r Hr.
  - now apply H.
  - rewrite access_page_memory in Hr. apply in_map_iff in Hr as (r1 & <- & Hr1).
    rewrite bump_page_id. now apply H.
  - rewrite allocate_page_memory in Hr. apply in_app_iff in Hr as [Hr | Hr].
    + now apply H.
    + destruct (snd (allocate_page m pid dat)); [| contradiction].
      destruct Hr as [<- | []]. exact Hi.
Qed.

Lemma node_steps_within (i : nat) n n' :
  rtc (node_step hash i) n n' -> within_capacity n -> within_capacity n'.
Proof. induction 1; eauto using node_step_within. Qed.

Lemma node_steps_fixed (i : nat) n n' :
  rtc (node_step hash i) n n' ->
  memory_size n' = memory_size n /\ node_id n' = node_id n.
Proof.
  induction 1 as [|n n1 n' H1 _ [IHs IHi]]; [now split |].
  apply node_step_fixed in H1 as [Hs Hi]. split; congruence.
Qed.

Lemma node_steps_routed (i : nat) n n' :
  rtc (node_step hash i) n n' -> rows_routed hash i n -> rows_routed hash i n'.
Proof. induction 1; eauto using node_step_routed. Qed.

End Runs.

Section ClusterInvariants.

Variable hash : string -> Z.

Implicit Types (n : Node) (nodes : list Node) (pid dat : string).

Lemma routed_rows nodes :
  routed hash nodes <->
  forall (i : nat) n, nodes !! i = Some n -> rows_routed hash i n.
Proof.
  unfold routed, rows_routed. split; intros H; intros; eapply H; eassumption.
Qed.

Lemma run_routed nodes cs nodes' :
  run hash nodes cs = Some nodes' -> routed hash nodes -> routed hash nodes'.
Proof.
  intros Hrun Hr. apply run_steps in Hrun as [Hlen Hsteps].
  rewrite routed_rows in Hr |- *. intros i n' Hi'.
  assert (Hi : is_Some (nodes !! i)).
  { apply lookup_lt_is_Some. rewrite <- Hlen. now apply lookup_lt_Some in Hi'. }
  destruct Hi as [n Hi].
  destruct (Hsteps i n Hi) as (n1 & Hn1 & Hs).
  assert (n1 = n') as -> by congruence.
  apply (node_steps_routed hash i n n' Hs). now apply Hr.
Qed.

(** C1: from a cluster of three nodes that are within their capacity,
    every sequence of allocations and lookups runs to a cluster of the
    same three capacities in which every node is again within its
    capacity (the sequence is arbitrary, so this holds after each of its
    calls); at the node, [allocate_page] and [access_page] each keep the
    bound. *)
Theorem capacity_invariant nodes cs :
  length nodes = 3%nat ->
  Forall within_capacity nodes ->
  (exists nodes',
     run hash nodes cs = Some nodes' /\
     length nodes' = 3%nat /\
     List.map memory_size nodes' = List.map memory_size nodes /\
     Forall within_capacity nodes') /\
  (forall n pid dat,
     within_capacity n -> within_capacity (fst (allocate_page n pid dat))) /\
  (forall n pid,
     within_capacity n -> within_capacity (fst (access_page n pid))).
Proof.
  intros Hlen Hcap. split; [| split].
  - destruct (run_total hash nodes cs Hlen) as [nodes' Hrun].
    exists nodes'. split; [exact Hrun |].
    apply run_steps in Hrun as [Hlen' Hsteps].
    split; [congruence |]. split.
    + apply list_eq. intros i.
      change (List.map memory_size nodes') with (memory_size <$> nodes').
      change (List.map memory_size nodes) with (memory_size <$> nodes).
      rewrite !list_lookup_fmap.
      destruct (nodes !! i) as [n|] eqn:Hi.
      * destruct (Hsteps i n Hi) as (n' & -> & Hs). simpl.
        now destruct (node_steps_fixed hash i n n' Hs) as [-> _].
      * apply lookup_ge_None in Hi. rewrite <- Hlen' in Hi.
        apply lookup_ge_None in Hi. now rewrite Hi.
    + apply Forall_lookup_2. intros i n' Hi'.
      assert (Hi : is_Some (nodes !! i)).
      { apply lookup_lt_is_Some. rewrite <- Hlen'.
        now apply lookup_lt_Some in Hi'. }
      destruct Hi as [n Hi].
      destruct (Hsteps i n Hi) as (n1 & Hn1 & Hs).
      assert (n1 = n') as -> by congruence.
      apply (node_steps_within hash i n n' Hs).
      now apply (proj1 (Forall_lookup _ _) Hcap i).
  - intros n pid dat.
    apply (node_step_within hash (Z.to_nat (node_idx hash pid))).
    now constructor.
  - intros n pid. apply (node_step_within hash 0%nat). constructor.
Qed.

(** C4: from a cluster of three nodes whose rows all sit in the node
    their identifier is distributed to (the empty cluster is one), every
    sequence of allocations and lookups runs to a cluster with the same
    property: a row in the node at index [i] has
    [hash(page_id) % 3 = i], so two rows with the same identifier are
    never in different nodes. *)
Theorem one_node_per_id nodes cs :
  length nodes = 3%nat ->
  routed hash nodes ->
  exists nodes',
    run hash nodes cs = Some nodes' /\
    (forall (i : nat) n r,
       nodes' !! i = Some n -> In r (memory n) ->
       Z.of_nat i = hash (page_id r) `mod` 3) /\
    (forall (i j : nat) ni nj ri rj,
       nodes' !! i = Some ni -> nodes' !! j = Some nj ->
       In ri (memory ni) -> In rj (memory nj) ->
       page_id ri = page_id rj -> i = j).
Proof.
  intros Hlen Hr.
  destruct (run_total hash nodes cs Hlen) as [nodes' Hrun].
  exists nodes'. split; [exact Hrun |].
  pose proof (run_routed nodes cs nodes' Hrun Hr) as Hr'.
  split.
  - intros i n r Hi Hin. rewrite <- (Hr' i n r Hi Hin).
    now rewrite node_idx_nat.
  - intros i j ni nj ri rj Hi Hj Hri Hrj Heq.
    rewrite <- (Hr' i ni ri Hi Hri), <- (Hr' j nj rj Hj Hrj).
    now rewrite Heq.
Qed.

End ClusterInvariants.

Section Contents.

Variable hash : string -> Z.

Implicit Types (n : Node) (nodes : list Node) (pid dat : string).
Implicit Types (pages : list (string * string)) (oks : list bool).

Lemma distribute_total nodes pages :
  length nodes = 3%nat ->
  exists nodes' oks, distribute hash nodes pages = Some (nodes', oks).
Proof.
  revert nodes. induction pages as [|[pid dat] pages IH]; intros nodes Hlen; simpl.
  - now exists nodes, [].
  - destruct (distribute_page_total hash nodes pid dat Hlen)
      as (nodes1 & ok & -> & Hlen1).
    destruct (IH nodes1 Hlen1) as (nodes' & oks & ->).
    now exists nodes', (ok :: oks).
Qed.

(** After the loop, each node holds what it held before, followed by one
    fresh row for every successful pair distributed to it, in loop order. *)
Lemma distribute_contents pages : forall nodes nodes' oks,
  distribute hash nodes pages = Some (nodes', oks) ->
  length oks = length pages /\
  length nodes' = length nodes /\
  forall (i : nat) n, nodes !! i = Some n ->
    exists n', nodes' !! i = Some n' /\
      node_id n' = node_id n /\ memory_size n' = memory_size n /\
      memory n' = memory n ++
        List.map new_row (List.filter (sent_to hash i) (succeeded pages oks)).
Proof.
  induction pages as [|[pid dat] pages IH]; intros nodes nodes' oks; simpl.
  - intros [= <- <-]. split; [reflexivity |]. split; [reflexivity |].
    intros i n Hi. exists n. now rewrite app_nil_r.
  - destruct (distribute_page hash nodes pid dat) as [[nodes1 ok]|] eqn:E1;
      [| discriminate].
    destruct (distribute hash nodes1 pages) as [[nodes2 oks2]|] eqn:E2;
      [| discriminate].
    intros [= <- <-].
    destruct (IH _ _ _ E2) as (Hoks & Hlen & Hrows).
    apply distribute_page_inv in E1 as (m & Hm & -> & ->).
    split; [simpl; now rewrite Hoks |].
    split; [now rewrite Hlen, length_insert |].
    intros i n Hi.
    destruct (decide (i = Z.to_nat (node_idx hash pid))) as [-> | Hne].
    + assert (m = n) as -> by congruence.
      destruct (Hrows (Z.to_nat (node_idx hash pid)) (fst (allocate_page n pid dat)))
        as (n' & Hn' & Hid & Hsz & Hmem).
      { apply list_lookup_insert_eq. now apply lookup_lt_Some in Hm. }
      exists n'. split; [exact Hn' |].
      split; [now rewrite Hid, allocate_page_node_id |].
      split; [now rewrite Hsz, allocate_page_memory_size |].
      rewrite Hmem, allocate_page_memory.
      destruct (snd (allocate_page n pid dat)); simpl.
      * unfold sent_to at 2. simpl. rewrite Nat.eqb_refl. simpl.
        now rewrite <- app_assoc.
      * now rewrite app_nil_r.
    + destruct (Hrows i n) as (n' & Hn' & Hid & Hsz & Hmem).
      { rewrite list_lookup_insert_ne; [exact Hi | congruence]. }
      exists n'. split; [exact Hn' |]. split; [exact Hid |].
      split; [exact Hsz |]. rewrite Hmem.
      destruct (snd (allocate_page m pid dat)); simpl; [| reflexivity].
      unfold sent_to at 2. simpl.
      destruct (Nat.eqb_spec (Z.to_nat (node_idx hash pid)) i); [| reflexivity].
      congruence.
Qed.

(** The loop is the run of its allocations. *)
Lemma distribute_run pages : forall nodes nodes' oks,
  distribute hash nodes pages = Some (nodes', oks) ->
  run hash nodes (List.map (fun p => Allocate (fst p) (snd p)) pages)
  = Some nodes'.
Proof.
  induction pages as [|[pid dat] pages IH]; intros nodes nodes' oks; simpl.
  - now intros [= <- _].
  - destruct (distribute_page hash nodes pid dat) as [[nodes1 ok]|];
      [| discriminate].
    destruct (distribute hash nodes1 pages) as [[nodes2 oks2]|] eqn:E2;
      [| discriminate].
    intros [= <- _]. simpl. now apply (IH nodes1 nodes2 oks2).
Qed.

Lemma nodes_init_lookup (i : nat) :
  (i < 3)%nat -> nodes_init !! i = Some (Node_init (Z.of_nat i) 3).
Proof.
  intros H. destruct i as [|[|[|i]]]; try reflexivity. lia.
Qed.

(** The loop run from the initial cluster. *)
Lemma distribute_from_init pages nodes' oks :
  distribute hash nodes_init pages = Some (nodes', oks) ->
  length oks = length pages /\
  length nodes' = 3%nat /\
  forall i : nat, (i < 3)%nat ->
    exists n', nodes' !! i = Some n' /\
      node_id n' = Z.of_nat i /\ memory_size n' = 3 /\
      memory n' =
        List.map new_row (List.filter (sent_to hash i) (succeeded pages oks)).
Proof.
  intros H. apply distribute_contents in H as (Hoks & Hlen & Hrows).
  split; [exact Hoks |]. split; [exact Hlen |].
  intros i Hi. apply (Hrows i _ (nodes_init_lookup i Hi)).
Qed.

Lemma filter_is_page_new_rows pid (l : list (string * string)) :
  List.filter (is_page pid) (List.map new_row l)
  = List.map new_row (List.filter (fun p => String.eqb (fst p) pid) l).
Proof.
  induction l as [|p l IH]; simpl; [reflexivity |].
  unfold is_page at 1. simpl.
  destruct (String.eqb (fst p) pid); simpl; now rewrite IH.
Qed.

Lemma filter_implied {A} (f g : A -> bool) (l : list A) :
  (forall x, f x = true -> g x = true) ->
  List.filter f (List.filter g l) = List.filter f l.
Proof.
  intros H. induction l as [|x l IH]; simpl; [reflexivity |].
  destruct (g x) eqn:G; simpl.
  - now rewrite IH.
  - destruct (f x) eqn:F; [| exact IH]. apply H in F. congruence.
Qed.

Lemma filter_excluded {A} (f g : A -> bool) (l : list A) :
  (forall x, f x = true -> g x = false) ->
  List.filter f (List.filter g l) = [].
Proof.
  intros H. induction l as [|x l IH]; simpl; [reflexivity |].
  destruct (g x) eqn:G; simpl; [| exact IH].
  destruct (f x) eqn:F; [| exact IH]. apply H in F. congruence.
Qed.

(** The selection made by [access_page] in a node after the loop: in the
    node the identifier is distributed to, the rows of the successful
    pairs with that identifier; in the other nodes, nothing. *)
Lemma selection_after_loop pages oks pid (i : nat) :
  List.filter (is_page pid)
    (List.map new_row (List.filter (sent_to hash i) (succeeded pages oks)))
  = if Nat.eqb (Z.to_nat (node_idx hash pid)) i
    then List.map new_row (succeeded_for pid pages oks)
    else [].
Proof.
  rewrite filter_is_page_new_rows. unfold succeeded_for.
  destruct (Nat.eqb_spec (Z.to_nat (node_idx hash pid)) i) as [<- | Hne].
  - f_equal. apply filter_implied. intros p Hp.
    apply String.eqb_eq in Hp. unfold sent_to. rewrite Hp. apply Nat.eqb_refl.
  - rewrite filter_excluded; [reflexivity |]. intros p Hp.
    apply String.eqb_eq in Hp. unfold sent_to. rewrite Hp.
    now apply Nat.eqb_neq.
Qed.

End Contents.

Section LookupAfterLoop.

Variable hash : string -> Z.

Implicit Types (n : Node) (nodes : list Node) (pid dat : string).
Implicit Types (pages : list (string * string)) (oks : list bool).

(** C2 (as the code has it): after the distribution loop has run on any
    list of pairs from the initial cluster, the lookup of an identifier
    reports the data of the FIRST pair with that identifier whose
    allocation succeeded, found in the node at index [hash(id) % 3]; it
    reports the page fault when no allocation for the identifier
    succeeded. *)
Theorem access_returns_first_success pages pid :
  exists nodes' oks,
    distribute hash nodes_init pages = Some (nodes', oks) /\
    length oks = length pages /\
    snd (gui_access_page nodes' pid)
    = match succeeded_for pid pages oks with
      | [] => PageFault
      | p :: _ => Found (hash pid `mod` 3) (snd p)
      end.
Proof.
  destruct (distribute_total hash nodes_init pages eq_refl)
    as (nodes' & oks & Hd).
  exists nodes', oks. split; [exact Hd |].
  apply distribute_from_init in Hd as (Hoks & Hlen & Hrows).
  split; [exact Hoks |].
  remember (Z.to_nat (node_idx hash pid)) as k eqn:Hk.
  assert (Hmiss : forall (i : nat) n,
             nodes' !! i = Some n -> i <> k -> snd (access_page n pid) = None).
  { intros i n Hi Hne.
    assert (Hi3 : (i < 3)%nat) by (apply lookup_lt_Some in Hi; lia).
    destruct (Hrows i Hi3) as (n' & Hn' & _ & _ & Hmem).
    assert (n' = n) as -> by congruence.
    unfold access_page. rewrite Hmem, selection_after_loop, <- Hk.
    destruct (Nat.eqb_spec k i); [congruence | reflexivity]. }
  assert (Hk3 : (k < 3)%nat) by (subst k; apply node_idx_lt).
  destruct (Hrows k Hk3) as (nk & Hnk & Hid & _ & Hmem).
  assert (Hsel : List.filter (is_page pid) (memory nk)
                 = List.map new_row (succeeded_for pid pages oks)).
  { rewrite Hmem, selection_after_loop, <- Hk, Nat.eqb_refl. reflexivity. }
  destruct (succeeded_for pid pages oks) as [|p rest].
  - rewrite gui_access_page_all_miss; [reflexivity |].
    apply Forall_lookup_2. intros i n Hi.
    destruct (decide (i = k)) as [-> | Hne].
    + assert (n = nk) as -> by congruence.
      unfold access_page. now rewrite Hsel.
    + now apply (Hmiss i n Hi).
  - rewrite <- (take_drop_middle nodes' k nk Hnk).
    rewrite (gui_access_page_first_hit _ _ _ pid
               (set_memory nk (List.map (bump pid) (memory nk)))
               (data (new_row p))).
    + simpl. rewrite Hid, Hk, node_idx_nat. reflexivity.
    + apply Forall_lookup_2. intros i n Hi.
      apply lookup_take_Some in Hi as [Hi Hlt].
      apply (Hmiss i n Hi). lia.
    + apply (access_page_hit nk pid (new_row p) (List.map new_row rest)).
      exact Hsel.
Qed.

End LookupAfterLoop.

Section Uniqueness.

Variable hash : string -> Z.

Implicit Types (n : Node) (nodes : list Node) (pid dat : string).
Implicit Types (pages : list (string * string)) (oks : list bool).

Lemma succeeded_in pages : forall oks p,
  In p (succeeded pages oks) -> In p pages.
Proof.
  induction pages as [|q pages IH]; intros [|[|] oks] p; simpl;
    try contradiction.
  - intros [-> | H]; [now left | right; now apply (IH oks)].
  - intros H. right. now apply (IH oks).
Qed.

Lemma NoDup_succeeded_fst (f : string * string -> bool) pages : forall oks,
  NoDup (List.map fst pages) ->
  NoDup (List.map fst (List.filter f (succeeded pages oks))).
Proof.
  induction pages as [|q pages IH]; intros [|[|] oks] Hnd; simpl;
    try constructor.
  - simpl in Hnd. apply NoDup_cons in Hnd as [Hq Hnd].
    destruct (f q); simpl; [| now apply IH].
    apply NoDup_cons. split; [| now apply IH].
    intros Hin. apply Hq. apply list_elem_of_In. apply list_elem_of_In in Hin.
    apply in_map_iff in Hin as (p & Hp & Hin).
    apply filter_In in Hin as [Hin _]. apply succeeded_in in Hin.
    apply in_map_iff. now exists p.
  - simpl in Hnd. apply NoDup_cons in Hnd as [_ Hnd]. now apply IH.
Qed.

Lemma page_id_new_rows (l : list (string * string)) :
  List.map page_id (List.map new_row l) = List.map fst l.
Proof. rewrite List.map_map. reflexivity. Qed.

Lemma in_all_rows nodes r :
  In r (all_rows nodes) <->
  exists (j : nat) n, nodes !! j = Some n /\ In r (memory n).
Proof.
  unfold all_rows. rewrite in_concat. split.
  - intros (m & Hm & Hr). apply in_map_iff in Hm as (n & <- & Hn).
    apply list_elem_of_In, list_elem_of_lookup in Hn as [j Hj]. now exists j, n.
  - intros (j & n & Hj & Hr). exists (memory n). split; [| exact Hr].
    apply in_map. apply list_elem_of_In, list_elem_of_lookup. now exists j.
Qed.


(** The pairs split by the node they are distributed to make up the
    pairs again. *)
Lemma split_by_node_Permutation (l : list (string * string)) :
  List.filter (sent_to hash 0) l ++ List.filter (sent_to hash 1) l
  ++ List.filter (sent_to hash 2) l ≡ₚ l.
Proof.
  assert (Hcons : forall (i : nat) p l',
            List.filter (sent_to hash i) (p :: l')
            = if Nat.eqb (Z.to_nat (node_idx hash (fst p))) i
              then p :: List.filter (sent_to hash i) l'
              else List.filter (sent_to hash i) l') by reflexivity.
  induction l as [|p l IH]; [reflexivity |].
  rewrite !Hcons.
  pose proof (node_idx_lt hash (fst p)) as Hlt.
  destruct (Z.to_nat (node_idx hash (fst p))) as [|[|[|k]]];
    cbn [Nat.eqb app]; try lia.
  - now rewrite IH.
  - rewrite <- Permutation_middle. now rewrite IH.
  - rewrite app_assoc, <- Permutation_middle, <- app_assoc. now rewrite IH.
Qed.

(** After the loop from the initial cluster, the identifiers of the rows
    are those of the successful pairs, each as often as it succeeded. *)
Lemma row_ids_Permutation pages nodes' oks :
  distribute hash nodes_init pages = Some (nodes', oks) ->
  List.map page_id (all_rows nodes') ≡ₚ List.map fst (succeeded pages oks).
Proof.
  intros Hd. apply distribute_from_init in Hd as (_ & Hlen & Hrows).
  destruct (Hrows 0%nat ltac:(lia)) as (a0 & Ha0 & _ & _ & Hm0).
  destruct (Hrows 1%nat ltac:(lia)) as (a1 & Ha1 & _ & _ & Hm1).
  destruct (Hrows 2%nat ltac:(lia)) as (a2 & Ha2 & _ & _ & Hm2).
  assert (nodes' = [a0; a1; a2]) as ->.
  { destruct nodes' as [|x0 [|x1 [|x2 [|x3 rest]]]]; try discriminate.
    simpl in Ha0, Ha1, Ha2. congruence. }
  unfold all_rows. simpl. rewrite app_nil_r, Hm0, Hm1, Hm2.
  rewrite !List.map_app, !page_id_new_rows, <- !List.map_app.
  change (List.map fst) with (fmap (M:=list) (@fst string string)).
  now rewrite split_by_node_Permutation.
Qed.

(** C3 (as the code has it): after the distribution loop has run on any
    list of pairs from the initial cluster, the identifiers of the rows
    of the cluster are the identifiers of the pairs whose allocation
    succeeded, each as often as it succeeded. So no two rows, in one
    node or in two, carry the same identifier exactly when no identifier
    was allocated successfully twice; this is so in particular when the
    identifiers given to the loop are pairwise distinct, as they are in
    the module's own [pages]. *)
Theorem ids_unique_iff_single_success pages :
  exists nodes' oks,
    distribute hash nodes_init pages = Some (nodes', oks) /\
    List.map page_id (all_rows nodes') ≡ₚ List.map fst (succeeded pages oks) /\
    (NoDup (List.map page_id (all_rows nodes')) <->
     NoDup (List.map fst (succeeded pages oks))) /\
    (NoDup (List.map fst pages) ->
     NoDup (List.map page_id (all_rows nodes'))).
Proof.
  destruct (distribute_total hash nodes_init pages eq_refl)
    as (nodes' & oks & Hd).
  exists nodes', oks. split; [exact Hd |].
  pose proof (row_ids_Permutation pages nodes' oks Hd) as Hperm.
  split; [exact Hperm |]. split; [now rewrite Hperm |].
  intros Hnd. rewrite Hperm.
  assert (Hall : forall l : list (string * string),
            List.filter (fun _ => true) l = l).
  { induction l as [|x l IH]; simpl; [reflexivity |]. now f_equal. }
  rewrite <- (Hall (succeeded pages oks)). now apply NoDup_succeeded_fst.
Qed.

End Uniqueness.

(** * Properties of the cipher *)

Section Utf8.

Implicit Types (c b k : Z) (bs rest : list Z) (t : text).

Ltac split_tests :=
  repeat match goal with
    | |- context [?a <=? ?b] => destruct (Z.leb_spec a b); try lia
    | |- context [?a <? ?b] => destruct (Z.ltb_spec a b); try lia
    end.

Lemma surrogate_false c :
  surrogate c = false <-> c < 0xD800 \/ 0xDFFF < c.
Proof. unfold surrogate. split_tests; simpl; intuition (lia || congruence). Qed.

Lemma continuation_true b : 0x80 <= b < 0xC0 -> continuation b = true.
Proof. intros H. unfold continuation. now split_tests. Qed.

(** The decoder on a well-formed sequence of each length. *)
Lemma decode_1 b0 rest :
  0 <= b0 < 0x80 ->
  bytes_decode (b0 :: rest) = cons b0 <$> bytes_decode rest.
Proof. intros H. simpl. now split_tests. Qed.

Lemma decode_2 b0 b1 rest :
  0xC2 <= b0 < 0xE0 -> 0x80 <= b1 < 0xC0 ->
  bytes_decode (b0 :: b1 :: rest)
  = cons ((b0 - 0xC0) * 64 + (b1 - 0x80)) <$> bytes_decode rest.
Proof.
  intros H0 H1. simpl. rewrite (continuation_true b1 H1). now split_tests.
Qed.

Lemma decode_3 b0 b1 b2 rest :
  0xE0 <= b0 < 0xF0 -> 0x80 <= b1 < 0xC0 -> 0x80 <= b2 < 0xC0 ->
  0x800 <= (b0 - 0xE0) * 4096 + (b1 - 0x80) * 64 + (b2 - 0x80) ->
  surrogate ((b0 - 0xE0) * 4096 + (b1 - 0x80) * 64 + (b2 - 0x80)) = false ->
  bytes_decode (b0 :: b1 :: b2 :: rest)
  = cons ((b0 - 0xE0) * 4096 + (b1 - 0x80) * 64 + (b2 - 0x80))
      <$> bytes_decode rest.
Proof.
  intros H0 H1 H2 Hmin Hsur. simpl.
  rewrite (continuation_true b1 H1), (continuation_true b2 H2), Hsur.
  now split_tests.
Qed.

Lemma decode_4 b0 b1 b2 b3 rest :
  0xF0 <= b0 < 0xF5 ->
  0x80 <= b1 < 0xC0 -> 0x80 <= b2 < 0xC0 -> 0x80 <= b3 < 0xC0 ->
  0x10000 <= (b0 - 0xF0) * 262144 + (b1 - 0x80) * 4096
             + (b2 - 0x80) * 64 + (b3 - 0x80) < 0x110000 ->
  bytes_decode (b0 :: b1 :: b2 :: b3 :: rest)
  = cons ((b0 - 0xF0) * 262144 + (b1 - 0x80) * 4096
          + (b2 - 0x80) * 64 + (b3 - 0x80)) <$> bytes_decode rest.
Proof.
  intros H0 H1 H2 H3 Hc. simpl.
  rewrite (continuation_true b1 H1), (continuation_true b2 H2),
    (continuation_true b3 H3).
  now split_tests.
Qed.

End Utf8.

Section Codec.

Implicit Types (c b k : Z) (bs rest : list Z) (t : text).

(** One code point: its encoding exists, consists of bytes, and is read
    back by the decoder in front of whatever follows. *)
Lemma encode_point_decode c :
  scalar c ->
  exists bs,
    encode_point c = Some bs /\
    Forall is_byte bs /\
    forall rest, bytes_decode (bs ++ rest) = cons c <$> bytes_decode rest.
Proof.
  intros [Hc Hs]. apply surrogate_false in Hs. unfold encode_point.
  destruct (Z.ltb_spec c 0); [lia |].
  destruct (Z.ltb_spec c 0x80).
  { eexists. split; [reflexivity |]. split.
    - repeat constructor; lia.
    - intros rest. apply decode_1. lia. }
  destruct (Z.ltb_spec c 0x800).
  { eexists. split; [reflexivity |]. split.
    - repeat constructor; Z.div_mod_to_equations; lia.
    - intros rest. cbn [app]. rewrite decode_2.
      + do 2 f_equal. Z.div_mod_to_equations; lia.
      + Z.div_mod_to_equations; lia.
      + Z.div_mod_to_equations; lia. }
  destruct (Z.ltb_spec c 0x10000).
  { assert (surrogate c = false) as -> by now apply surrogate_false.
    eexists. split; [reflexivity |].
    assert (Hval : (0xE0 + c / 4096 - 0xE0) * 4096
                   + (0x80 + (c / 64) `mod` 64 - 0x80) * 64
                   + (0x80 + c `mod` 64 - 0x80) = c)
      by (Z.div_mod_to_equations; lia).
    split.
    - repeat constructor; Z.div_mod_to_equations; lia.
    - intros rest. cbn [app]. rewrite decode_3.
      + now rewrite Hval.
      + Z.div_mod_to_equations; lia.
      + Z.div_mod_to_equations; lia.
      + Z.div_mod_to_equations; lia.
      + rewrite Hval. lia.
      + rewrite Hval. now apply surrogate_false. }
  destruct (Z.ltb_spec c 0x110000); [| lia].
  eexists. split; [reflexivity |].
  assert (Hval : (0xF0 + c / 262144 - 0xF0) * 262144
                 + (0x80 + (c / 4096) `mod` 64 - 0x80) * 4096
                 + (0x80 + (c / 64) `mod` 64 - 0x80) * 64
                 + (0x80 + c `mod` 64 - 0x80) = c)
    by (Z.div_mod_to_equations; lia).
  split.
  - repeat constructor; Z.div_mod_to_equations; lia.
  - intros rest. cbn [app]. rewrite decode_4.
    + now rewrite Hval.
    + Z.div_mod_to_equations; lia.
    + Z.div_mod_to_equations; lia.
    + Z.div_mod_to_equations; lia.
    + Z.div_mod_to_equations; lia.
    + rewrite Hval. lia.
Qed.

End Codec.

Section CipherRoundTrip.

Implicit Types (c b k : Z) (bs rest : list Z) (t : text).

(** [decode] undoes [encode] on every text that has an encoding. *)
Lemma str_encode_decode t :
  Forall scalar t ->
  exists bs,
    str_encode t = Some bs /\ Forall is_byte bs /\ bytes_decode bs = Some t.
Proof.
  induction 1 as [|c t Hc _ (bs' & Henc & Hbytes & Hdec)]; simpl.
  - exists []. repeat split. constructor.
  - destruct (encode_point_decode c Hc) as (bs & -> & Hbs & Hfront).
    rewrite Henc. exists (bs ++ bs'). split; [reflexivity |].
    split; [now apply Forall_app |].
    now rewrite Hfront, Hdec.
Qed.

Lemma log2_byte b : is_byte b -> Z.log2 b < 8.
Proof.
  intros [H0 H1]. destruct (Z.eq_dec b 0) as [-> | Hne]; [reflexivity |].
  apply Z.log2_lt_pow2; lia.
Qed.

(** Exclusive-or of two bytes is a byte. *)
Lemma lxor_byte b k : is_byte b -> is_byte k -> is_byte (Z.lxor b k).
Proof.
  intros Hb Hk.
  pose proof (log2_byte b Hb) as Hlb. pose proof (log2_byte k Hk) as Hlk.
  destruct Hb as [Hb0 Hb1], Hk as [Hk0 Hk1].
  assert (Hx0 : 0 <= Z.lxor b k) by (apply Z.lxor_nonneg; tauto).
  split; [exact Hx0 |].
  destruct (Z.eq_dec (Z.lxor b k) 0) as [-> | Hne]; [lia |].
  change 256 with (2 ^ 8). apply Z.log2_lt_pow2; [lia |].
  pose proof (Z.log2_lxor b k Hb0 Hk0). lia.
Qed.

Lemma lxor_twice b k : Z.lxor (Z.lxor b k) k = b.
Proof. now rewrite Z.lxor_assoc, Z.lxor_nilpotent, Z.lxor_0_r. Qed.

Lemma uint8_all_bytes bs : Forall is_byte bs -> uint8_all bs = Some bs.
Proof.
  induction 1 as [|b bs [Hb0 Hb1] _ IH]; simpl; [reflexivity |].
  rewrite IH. unfold uint8.
  destruct (Z.leb_spec 0 b); [| lia]. destruct (Z.ltb_spec b 256); [| lia].
  reflexivity.
Qed.

Lemma map_lxor_bytes k bs :
  is_byte k -> Forall is_byte bs ->
  Forall is_byte (List.map (fun b => Z.lxor b k) bs).
Proof.
  intros Hk. induction 1; simpl; constructor; auto using lxor_byte.
Qed.

Lemma map_lxor_twice k bs :
  List.map (fun b => Z.lxor b k) (List.map (fun b => Z.lxor b k) bs) = bs.
Proof.
  induction bs as [|b bs IH]; simpl; [reflexivity |].
  now rewrite lxor_twice, IH.
Qed.

(** C9 (as the code has it): for every text that has a UTF-8 encoding,
    that is, every text without a surrogate code point, and every key
    byte, [encrypt] returns the bytes of that encoding, each
    exclusive-ored with the key, and [decrypt] with the same key returns
    the text. *)
Theorem decrypt_encrypt t k :
  Forall scalar t ->
  0 <= k <= 255 ->
  exists data_bytes encrypted,
    str_encode t = Some data_bytes /\
    encrypt t k = Some encrypted /\
    encrypted = List.map (fun b => Z.lxor b k) data_bytes /\
    decrypt encrypted k = Some t.
Proof.
  intros Ht Hk. assert (Hkb : is_byte k) by (unfold is_byte; lia).
  destruct (str_encode_decode t Ht) as (bs & Henc & Hbytes & Hdec).
  exists bs, (List.map (fun b => Z.lxor b k) bs).
  split; [exact Henc |].
  split.
  - unfold encrypt. rewrite Henc. apply uint8_all_bytes.
    now apply map_lxor_bytes.
  - split; [reflexivity |].
    unfold decrypt. rewrite map_lxor_twice, (uint8_all_bytes bs Hbytes).
    exact Hdec.
Qed.

End CipherRoundTrip.

(** * The statements on concrete runs *)

(** The module's own loop under [hash_sum]: [page_9] goes to node 1, which
    is full by then; nine rows are stored. *)
Example distribute_pages_sample :
  exists nodes',
    distribute hash_sum nodes_init pages
    = Some (nodes', [true; true; true; true; true; true; true; true; true; false])
    /\ List.map (fun n => List.map page_id (memory n)) nodes'
       = [["page_2"; "page_5"; "page_8"]; ["page_0"; "page_3"; "page_6"];
          ["page_1"; "page_4"; "page_7"]]%string.
Proof. eexists. split; reflexivity. Qed.

(** Two lookups of [page_0] both report [data_0] and leave its access
    count at 2; a lookup in the empty cluster is a page fault. *)
Example access_twice_sample :
  exists nodes1 nodes2 nodes3,
    distribute hash_sum nodes_init [("page_0", "data_0")]%string
      = Some (nodes1, [true]) /\
    gui_access_page nodes1 "page_0" = (nodes2, Found 1 "data_0") /\
    gui_access_page nodes2 "page_0" = (nodes3, Found 1 "data_0") /\
    List.map access_count (all_rows nodes3) = [2] /\
    gui_access_page nodes_init "missing" = (nodes_init, PageFault).
Proof. do 3 eexists. repeat split; reflexivity. Qed.

(** At the [int64] maximum the next lookup stores the minimum. *)
Example access_page_wraps :
  access_page node_saturated "page_0"
  = ({| node_id := 0;
        memory := [mkPageRecord "page_0" "data_0" int64_min];
        memory_size := 3 |},
     Some "data_0"%string).
Proof. reflexivity. Qed.

Lemma nodes_init_within : Forall within_capacity nodes_init.
Proof. repeat constructor; discriminate. Defined.

Lemma nodes_init_routed hash : routed hash nodes_init.
Proof.
  intros i n r Hi Hr.
  destruct i as [|[|[|i]]]; simpl in Hi; try discriminate;
    injection Hi as <-; destruct Hr.
Defined.

Lemma capacity_invariant_witness :
  length nodes_init = 3%nat /\
  Forall within_capacity nodes_init /\
  exists nodes',
    run hash_sum nodes_init calls_sample = Some nodes' /\
    length nodes' = 3%nat /\
    List.map memory_size nodes' = List.map memory_size nodes_init /\
    Forall within_capacity nodes'.
Proof.
  split; [reflexivity |]. split; [exact nodes_init_within |].
  exact (proj1 (capacity_invariant hash_sum nodes_init calls_sample
                  eq_refl nodes_init_within)).
Defined.

Lemma one_node_per_id_witness :
  length nodes_init = 3%nat /\
  routed hash_sum nodes_init /\
  exists nodes',
    run hash_sum nodes_init calls_sample = Some nodes' /\
    (forall (i : nat) n r,
       nodes' !! i = Some n -> In r (memory n) ->
       Z.of_nat i = hash_sum (page_id r) `mod` 3) /\
    (forall (i j : nat) ni nj ri rj,
       nodes' !! i = Some ni -> nodes' !! j = Some nj ->
       In ri (memory ni) -> In rj (memory nj) ->
       page_id ri = page_id rj -> i = j).
Proof.
  split; [reflexivity |]. split; [exact (nodes_init_routed hash_sum) |].
  exact (one_node_per_id hash_sum nodes_init calls_sample
           eq_refl (nodes_init_routed hash_sum)).
Defined.

Lemma distribute_page_single_node_witness :
  length nodes_init = 3%nat /\
  exists n nodes' ok,
    nodes_init !! Z.to_nat (node_idx hash_sum "page_1") = Some n /\
    distribute_page hash_sum nodes_init "page_1" "data_1" = Some (nodes', ok) /\
    length nodes' = length nodes_init /\
    nodes' !! Z.to_nat (node_idx hash_sum "page_1")
      = Some (fst (allocate_page n "page_1" "data_1")) /\
    ok = snd (allocate_page n "page_1" "data_1") /\
    (forall j : nat, j <> Z.to_nat (node_idx hash_sum "page_1") ->
       nodes' !! j = nodes_init !! j) /\
    (memory_size n <= len n -> ok = false /\ nodes' = nodes_init).
Proof.
  split; [reflexivity |].
  exact (distribute_page_single_node hash_sum nodes_init "page_1" "data_1" eq_refl).
Defined.

(** C2 fails as stated: after [('a','x')] and [('a','y')] have both been
    allocated, the lookup of ['a'] does not report the data of the last
    successful allocation. *)
Lemma access_most_recent_fails :
  ~ (forall nodes' oks,
       distribute hash_sum nodes_init pages_dup = Some (nodes', oks) ->
       snd (gui_access_page nodes' "a")
       = match last (succeeded_for "a" pages_dup oks) with
         | Some p => Found (hash_sum "a" `mod` 3) (snd p)
         | None => PageFault
         end).
Proof.
  intros H. specialize (H _ _ eq_refl). vm_compute in H. discriminate H.
Qed.

(** C3 fails as stated: the second allocation of ['a'] adds a second row
    with that identifier. *)
Lemma second_allocation_duplicates :
  ~ (forall nodes' oks,
       distribute hash_sum nodes_init pages_dup = Some (nodes', oks) ->
       NoDup (List.map page_id (all_rows nodes'))).
Proof.
  intros H. specialize (H _ _ eq_refl).
  apply NoDup_cons_1_1 in H. apply H. now left.
Qed.

Lemma pages_distinct : NoDup (List.map fst pages).
Proof. apply (bool_decide_unpack _). vm_compute. exact I. Defined.

(** A repeated identifier whose second allocation is rejected leaves the
    identifiers of the rows distinct: [page_9] is rejected twice, and
    [page_0] is rejected when it is tried again on its full node. *)
Example rejected_repeats_keep_ids_unique :
  ~ NoDup (List.map fst (pages ++ [("page_9", "again"); ("page_0", "again")]%string)) /\
  exists nodes',
    distribute hash_sum nodes_init
      (pages ++ [("page_9", "again"); ("page_0", "again")]%string)
    = Some (nodes',
            [true; true; true; true; true; true; true; true; true; false;
             false; false]) /\
    NoDup (List.map page_id (all_rows nodes')).
Proof.
  split.
  - intros H. apply (bool_decide_pack _) in H. vm_compute in H. exact H.
  - eexists. split; [reflexivity |].
    apply (bool_decide_unpack _). vm_compute. exact I.
Qed.

(** A lone surrogate has no UTF-8 encoding: [encode] raises, and so does
    [encrypt]. *)
Example encrypt_surrogate : encrypt [0xD800] default_key = None.
Proof. reflexivity. Qed.

Lemma text_sample_scalar : Forall scalar text_sample.
Proof. repeat constructor; discriminate. Defined.

Lemma decrypt_encrypt_witness :
  Forall scalar text_sample /\
  0 <= default_key <= 255 /\
  exists data_bytes encrypted,
    str_encode text_sample = Some data_bytes /\
    encrypt text_sample default_key = Some encrypted /\
    encrypted = List.map (fun b => Z.lxor b default_key) data_bytes /\
    decrypt encrypted default_key = Some text_sample.
Proof.
  assert (Hk : 0 <= default_key <= 255) by (split; discriminate).
  split; [exact text_sample_scalar |]. split; [exact Hk |].
  exact (decrypt_encrypt text_sample default_key text_sample_scalar Hk).
Defined.

(** * Further properties of the node *)

Section NodeComposition.

Implicit Types (n : Node) (r : PageRecord) (p q pid dat : string).

(** What [access_page] returns, read off the frame. *)
Lemma access_page_answer n q :
  snd (access_page n q)
  = data <$> head (List.filter (is_page q) (memory n)).
Proof. unfold access_page. now destruct (List.filter (is_page q) (memory n)). Qed.

Lemma is_page_bump q p r : is_page q (bump p r) = is_page q r.
Proof. unfold is_page. now rewrite bump_page_id. Qed.

Lemma filter_is_page_bumped q p (m : list PageRecord) :
  List.filter (is_page q) (List.map (bump p) m)
  = List.map (bump p) (List.filter (is_page q) m).
Proof.
  induction m as [|r m IH]; simpl; [reflexivity |].
  rewrite is_page_bump. destruct (is_page q r); simpl; now rewrite IH.
Qed.

(** An earlier [access_page], for any identifier, does not change what a
    later one returns. *)
Lemma access_page_answer_stable n p q :
  snd (access_page (fst (access_page n p)) q) = snd (access_page n q).
Proof.
  rewrite !access_page_answer, access_page_memory, filter_is_page_bumped.
  destruct (List.filter (is_page q) (memory n)) as [|r0 rest]; simpl.
  - reflexivity.
  - now rewrite bump_data.
Qed.

(** The answer for [q] after an [allocate_page] of [pid]. *)
Lemma allocate_then_access_answer n pid dat q :
  snd (access_page (fst (allocate_page n pid dat)) q)
  = match snd (access_page n q) with
    | Some d => Some d
    | None =>
        if snd (allocate_page n pid dat) && String.eqb pid q
        then Some dat else None
    end.
Proof.
  rewrite !access_page_answer, allocate_page_memory, List.filter_app.
  destruct (List.filter (is_page q) (memory n)) as [|r0 rest]; simpl;
    [| reflexivity].
  destruct (snd (allocate_page n pid dat)); simpl; [| reflexivity].
  unfold is_page. simpl. now destruct (String.eqb pid q).
Qed.

End NodeComposition.

Section NodeCompositionSpec.

Implicit Types (n : Node) (r : PageRecord) (p q pid dat : string).

(** X1: [allocate_page] followed by [access_page] on one node. A lookup
    of another identifier answers as before the allocation. A lookup of
    the allocated identifier answers with the data of the older row when
    the node already held one (the new row never shadows it), with the
    new data when it held none and the allocation succeeded, and with
    [None] when it held none and the node was full. *)
Theorem allocate_then_access n pid dat :
  (forall q, q <> pid ->
     snd (access_page (fst (allocate_page n pid dat)) q)
     = snd (access_page n q)) /\
  (forall d, snd (access_page n pid) = Some d ->
     snd (access_page (fst (allocate_page n pid dat)) pid) = Some d) /\
  (snd (access_page n pid) = None ->
     snd (access_page (fst (allocate_page n pid dat)) pid)
     = if snd (allocate_page n pid dat) then Some dat else None).
Proof.
  split; [| split].
  - intros q Hq. rewrite allocate_then_access_answer.
    destruct (snd (access_page n q)); [reflexivity |].
    assert (String.eqb pid q = false) as -> by (apply String.eqb_neq; congruence).
    now rewrite andb_false_r.
  - intros d Hd. now rewrite allocate_then_access_answer, Hd.
  - intros Hd. rewrite allocate_then_access_answer, Hd, String.eqb_refl.
    now rewrite andb_true_r.
Qed.

End NodeCompositionSpec.

(** * Further properties of the cluster *)

Section ScanAndRoute.

Variable hash : string -> Z.

Implicit Types (n : Node) (nodes : list Node) (p q pid dat : string).

(** The result of the scan depends on the nodes only through their
    [node_id] and their own answers. *)
Lemma gui_result_ext nodes nodes' q :
  Forall2 (fun n n' => node_id n = node_id n' /\
                       snd (access_page n q) = snd (access_page n' q))
    nodes nodes' ->
  snd (gui_access_page nodes q) = snd (gui_access_page nodes' q).
Proof.
  induction 1 as [|n n' nodes nodes' [Hid Hans] _ IH]; simpl; [reflexivity |].
  destruct (access_page n q) as [n1 [d|]], (access_page n' q) as [n1' [d'|]];
    simpl in *; try discriminate.
  - injection Hans as <-. now rewrite Hid.
  - destruct (gui_access_page nodes q), (gui_access_page nodes' q). exact IH.
Qed.

(** In a routed cluster a node other than the one an identifier is
    distributed to holds no row with it. *)
Lemma routed_miss nodes (i : nat) n q :
  routed hash nodes -> nodes !! i = Some n ->
  i <> Z.to_nat (node_idx hash q) ->
  access_page n q = (n, None).
Proof.
  intros Hr Hi Hne. apply access_page_miss. apply List.Forall_forall.
  intros r Hin Heq. apply Hne. rewrite <- Heq. symmetry.
  now apply (Hr i n r).
Qed.

Lemma gui_access_page_at nodes (k : nat) n q :
  nodes !! k = Some n ->
  (forall (i : nat) m, nodes !! i = Some m -> i <> k ->
     access_page m q = (m, None)) ->
  gui_access_page nodes q
  = (<[k := fst (access_page n q)]> nodes,
     match snd (access_page n q) with
     | Some d => Found (node_id n) d
     | None => PageFault
     end).
Proof.
  intros Hk Hmiss.
  assert (Hpre : Forall (fun m => snd (access_page m q) = None) (take k nodes)).
  { apply Forall_lookup_2. intros i m Hi.
    apply lookup_take_Some in Hi as [Hi Hlt].
    rewrite (Hmiss i m Hi); [reflexivity | lia]. }
  destruct (access_page n q) as [n' [d|]] eqn:E; simpl.
  - assert (Hlen : length (take k nodes) = k).
    { apply length_take_le. apply lookup_lt_Some in Hk. lia. }
    rewrite <- (take_drop_middle nodes k n Hk).
    rewrite (gui_access_page_first_hit _ _ _ q n' d Hpre E).
    rewrite insert_app_r_alt by lia.
    rewrite Hlen, Nat.sub_diag. reflexivity.
  - assert (n' = n) as ->.
    { pose proof (access_page_None n q) as H. rewrite E in H.
      specialize (H eq_refl). congruence. }
    rewrite list_insert_id by exact Hk.
    apply gui_access_page_all_miss. apply Forall_lookup_2. intros i m Hi.
    destruct (decide (i = k)) as [-> | Hne].
    + assert (m = n) as -> by congruence. now rewrite E.
    + now rewrite (Hmiss i m Hi Hne).
Qed.

End ScanAndRoute.

Section ClusterComposition.

Variable hash : string -> Z.

Implicit Types (n : Node) (nodes : list Node) (p q pid dat : string).

Lemma distribute_page_routed nodes pid dat nodes' ok :
  routed hash nodes ->
  distribute_page hash nodes pid dat = Some (nodes', ok) ->
  routed hash nodes'.
Proof.
  intros Hr Hd. apply distribute_page_steps in Hd as [Hlen Hsteps].
  rewrite routed_rows in Hr |- *. intros i n' Hi'.
  assert (Hi : is_Some (nodes !! i)).
  { apply lookup_lt_is_Some. rewrite <- Hlen. now apply lookup_lt_Some in Hi'. }
  destruct Hi as [n Hi]. destruct (Hsteps i n Hi) as (n1 & Hn1 & Hs).
  assert (n1 = n') as -> by congruence.
  apply (node_step_routed hash i n n' Hs). now apply Hr.
Qed.

Lemma routed_lookup nodes n q :
  routed hash nodes ->
  nodes !! Z.to_nat (node_idx hash q) = Some n ->
  gui_access_page nodes q
  = (<[Z.to_nat (node_idx hash q) := fst (access_page n q)]> nodes,
     match snd (access_page n q) with
     | Some d => Found (node_id n) d
     | None => PageFault
     end).
Proof.
  intros Hr Hn. apply gui_access_page_at; [exact Hn |].
  intros i m Hi Hne. now apply (routed_miss hash nodes i m q).
Qed.

(** X3: in a cluster of three nodes whose rows all sit in the node their
    identifier is distributed to, the scan over all nodes does what a
    lookup in the single node [nodes[hash(id) % 3]] would do: it reports
    that node's answer, and that node is the only one whose state can
    change. *)
Theorem scan_is_routed_lookup nodes q :
  length nodes = 3%nat ->
  routed hash nodes ->
  exists n,
    nodes !! Z.to_nat (hash q `mod` 3) = Some n /\
    gui_access_page nodes q
    = (<[Z.to_nat (hash q `mod` 3) := fst (access_page n q)]> nodes,
       match snd (access_page n q) with
       | Some d => Found (node_id n) d
       | None => PageFault
       end).
Proof.
  intros Hlen Hr. destruct (target_exists hash nodes q Hlen) as [n Hn].
  exists n. split; [exact Hn |]. now apply routed_lookup.
Qed.

Lemma gui_access_page_related nodes p q :
  Forall2 (fun n n' => node_id n = node_id n' /\
                       snd (access_page n q) = snd (access_page n' q))
    (fst (gui_access_page nodes p)) nodes.
Proof.
  apply Forall2_same_length_lookup_2.
  - apply gui_access_page_length.
  - intros i n' n Hi' Hi.
    destruct (gui_access_page_nodes nodes p i n Hi) as [H | H];
      rewrite H in Hi'; injection Hi' as <-.
    + now split.
    + split; [apply access_page_node_id | apply access_page_answer_stable].
Qed.

(** X2: a lookup, hit or page fault and for any identifier, does not
    change what any later lookup reports: neither [access_page] on a
    node nor the scan over the cluster. Lookups only move counters. *)
Theorem lookup_then_lookup nodes p q :
  (forall n,
     snd (access_page (fst (access_page n p)) q) = snd (access_page n q)) /\
  snd (gui_access_page (fst (gui_access_page nodes p)) q)
  = snd (gui_access_page nodes q).
Proof.
  split.
  - intros n. apply access_page_answer_stable.
  - apply gui_result_ext. apply gui_access_page_related.
Qed.

Lemma distribute_page_related nodes pid dat n q :
  nodes !! Z.to_nat (node_idx hash pid) = Some n ->
  q <> pid ->
  Forall2 (fun m m' => node_id m = node_id m' /\
                       snd (access_page m q) = snd (access_page m' q))
    (<[Z.to_nat (node_idx hash pid) := fst (allocate_page n pid dat)]> nodes)
    nodes.
Proof.
  intros Hn Hq. apply Forall2_same_length_lookup_2; [apply length_insert |].
  intros i m' m Hi' Hi.
  destruct (decide (i = Z.to_nat (node_idx hash pid))) as [-> | Hne].
  - rewrite list_lookup_insert_eq in Hi' by (now apply lookup_lt_Some in Hn).
    injection Hi' as <-. assert (m = n) as -> by congruence.
    split; [apply allocate_page_node_id |].
    rewrite allocate_then_access_answer.
    destruct (snd (access_page n q)); [reflexivity |].
    assert (String.eqb pid q = false) as ->
        by (apply String.eqb_neq; congruence).
    now rewrite andb_false_r.
  - rewrite list_lookup_insert_ne in Hi' by congruence.
    assert (m' = m) as -> by congruence. now split.
Qed.

(** X4: one step of the distribution loop followed by a lookup, in a
    cluster of three nodes whose rows are where their identifiers are
    distributed to. Lookups of other identifiers report what they
    reported before. A lookup of the allocated identifier that hit before
    reports the same node and the same data afterwards (a stored page is
    never replaced or shadowed); one that page-faulted before reports
    the new data in the target node when the allocation succeeded, and
    still page-faults when the target node was full. *)
Theorem allocate_then_lookup nodes pid dat :
  length nodes = 3%nat ->
  routed hash nodes ->
  exists n nodes' ok,
    nodes !! Z.to_nat (hash pid `mod` 3) = Some n /\
    distribute_page hash nodes pid dat = Some (nodes', ok) /\
    (forall q, q <> pid ->
       snd (gui_access_page nodes' q) = snd (gui_access_page nodes q)) /\
    (forall nid d, snd (gui_access_page nodes pid) = Found nid d ->
       snd (gui_access_page nodes' pid) = Found nid d) /\
    (snd (gui_access_page nodes pid) = PageFault ->
       snd (gui_access_page nodes' pid)
       = if ok then Found (node_id n) dat else PageFault).
Proof.
  intros Hlen Hr. destruct (target_exists hash nodes pid Hlen) as [n Hn].
  pose proof (distribute_page_at hash nodes pid dat n Hn) as Hd.
  exists n. eexists. eexists. split; [exact Hn |]. split; [exact Hd |].
  pose proof (distribute_page_routed _ _ _ _ _ Hr Hd) as Hr'.
  assert (Hn' : <[Z.to_nat (node_idx hash pid)
                  := fst (allocate_page n pid dat)]> nodes
                !! Z.to_nat (node_idx hash pid)
                = Some (fst (allocate_page n pid dat))).
  { apply list_lookup_insert_eq. now apply lookup_lt_Some in Hn. }
  rewrite (routed_lookup _ _ pid Hr' Hn'), (routed_lookup _ _ pid Hr Hn).
  simpl. rewrite allocate_then_access_answer, allocate_page_node_id.
  rewrite String.eqb_refl, andb_true_r.
  split; [| split].
  - intros q Hq. apply gui_result_ext. now apply distribute_page_related.
  - intros nid d Hhit. destruct (snd (access_page n pid)); [exact Hhit |].
    discriminate.
  - intros Hfault. destruct (snd (access_page n pid)); [discriminate |].
    now destruct (snd (allocate_page n pid dat)).
Qed.

End ClusterComposition.

Section FirstComeFirstServed.

Variable hash : string -> Z.

Implicit Types (n : Node) (nodes : list Node) (pid dat : string).
Implicit Types (pages : list (string * string)) (oks : list bool).

Lemma allocate_page_flag n pid dat :
  snd (allocate_page n pid dat) = (len n <? memory_size n).
Proof. unfold allocate_page. now destruct (len n <? memory_size n). Qed.

Lemma allocate_page_len n pid dat :
  len (fst (allocate_page n pid dat))
  = len n + (if snd (allocate_page n pid dat) then 1 else 0).
Proof.
  unfold len. rewrite allocate_page_memory, length_app.
  destruct (snd (allocate_page n pid dat)); simpl; lia.
Qed.

(** After the loop, each node has taken, of the pairs distributed to it
    and in their order, as many as it had room for. *)
Lemma distribute_takes pages : forall nodes nodes' oks,
  distribute hash nodes pages = Some (nodes', oks) ->
  forall (i : nat) n, nodes !! i = Some n ->
    exists n', nodes' !! i = Some n' /\
      memory n' = memory n ++
        List.map new_row
          (take (Z.to_nat (memory_size n - len n))
                (List.filter (sent_to hash i) pages)).
Proof.
  induction pages as [|[pid dat] pages IH]; intros nodes nodes' oks; simpl.
  - intros [= <- _] i n Hi. exists n. split; [exact Hi |].
    rewrite take_nil. simpl. now rewrite app_nil_r.
  - destruct (distribute_page hash nodes pid dat) as [[nodes1 ok]|] eqn:E1;
      [| discriminate].
    destruct (distribute hash nodes1 pages) as [[nodes2 oks2]|] eqn:E2;
      [| discriminate].
    intros [= <- _] i n Hi.
    apply distribute_page_inv in E1 as (m & Hm & -> & _).
    unfold sent_to at 1. simpl.
    destruct (Nat.eqb_spec (Z.to_nat (node_idx hash pid)) i) as [<- | Hne].
    + assert (m = n) as -> by congruence.
      destruct (IH _ _ _ E2 (Z.to_nat (node_idx hash pid))
                  (fst (allocate_page n pid dat)))
        as (n' & Hn' & Hmem).
      { apply list_lookup_insert_eq. now apply lookup_lt_Some in Hm. }
      exists n'. split; [exact Hn' |]. rewrite Hmem.
      rewrite allocate_page_memory_size, allocate_page_len, allocate_page_memory.
      rewrite allocate_page_flag.
      destruct (Z.ltb_spec (len n) (memory_size n)) as [Hlt | Hge].
      * replace (Z.to_nat (memory_size n - len n))
          with (S (Z.to_nat (memory_size n - (len n + 1)))) by lia.
        simpl. now rewrite <- app_assoc.
      * replace (Z.to_nat (memory_size n - len n)) with 0%nat by lia.
        replace (Z.to_nat (memory_size n - (len n + 0))) with 0%nat by lia.
        simpl. now rewrite !app_nil_r.
    + destruct (IH _ _ _ E2 i n) as (n' & Hn' & Hmem).
      { rewrite list_lookup_insert_ne; [exact Hi | exact Hne]. }
      now exists n'.
Qed.

(** The flag of the pair at position [j]: its node still had room after
    the earlier pairs distributed to the same node. *)
Lemma distribute_flags pages : forall nodes nodes' oks,
  distribute hash nodes pages = Some (nodes', oks) ->
  forall (j : nat) p, pages !! j = Some p ->
    exists n,
      nodes !! Z.to_nat (node_idx hash (fst p)) = Some n /\
      oks !! j
      = Some (len n
              + Z.of_nat (length (List.filter
                                    (sent_to hash (Z.to_nat (node_idx hash (fst p))))
                                    (take j pages)))
              <? memory_size n).
Proof.
  induction pages as [|[pid dat] pages IH]; intros nodes nodes' oks; simpl;
    [intros _ j p Hj; discriminate |].
  destruct (distribute_page hash nodes pid dat) as [[nodes1 ok]|] eqn:E1;
    [| discriminate].
  destruct (distribute hash nodes1 pages) as [[nodes2 oks2]|] eqn:E2;
    [| discriminate].
  intros [= <- <-] j p Hj.
  apply distribute_page_inv in E1 as (m & Hm & -> & ->).
  destruct j as [|j]; simpl in Hj.
  - injection Hj as <-. simpl. exists m. split; [exact Hm |].
    rewrite allocate_page_flag. do 2 f_equal. lia.
  - destruct (IH _ _ _ E2 j p Hj) as (n1 & Hn1 & Hflag).
    simpl. rewrite Hflag. unfold sent_to at 2. simpl.
    destruct (Nat.eqb_spec (Z.to_nat (node_idx hash pid))
                (Z.to_nat (node_idx hash (fst p)))) as [Heq | Hne].
    + rewrite <- Heq in Hn1.
      rewrite list_lookup_insert_eq in Hn1 by (now apply lookup_lt_Some in Hm).
      injection Hn1 as <-. exists m. split; [now rewrite <- Heq |].
      rewrite allocate_page_memory_size, allocate_page_len, allocate_page_flag.
      f_equal. simpl length.
      destruct (Z.ltb_spec (len m) (memory_size m)) as [Hlt | Hge].
      * f_equal. lia.
      * transitivity false; [apply Z.ltb_ge | symmetry; apply Z.ltb_ge]; lia.
    + rewrite list_lookup_insert_ne in Hn1 by exact Hne.
      exists n1. now split.
Qed.

(** X5: the distribution loop is first come, first served. Run on any
    list of pairs from a cluster of three nodes, it leaves in each node
    what the node held, followed by the first pairs distributed to that
    node, in loop order, as many as the node had free rows (none when
    [memory_size] is not above the row count); the pair at position [j]
    is accepted exactly when its node's row count plus the number of
    earlier pairs distributed to that node is below the node's
    [memory_size]. Pairs sent to other nodes never use up a node's room,
    and a rejected pair is not retried. *)
Theorem distribute_first_come_first_served nodes pages :
  length nodes = 3%nat ->
  exists nodes' oks,
    distribute hash nodes pages = Some (nodes', oks) /\
    (forall (i : nat) n, nodes !! i = Some n ->
       exists n', nodes' !! i = Some n' /\
         memory n' = memory n ++
           List.map new_row
             (take (Z.to_nat (memory_size n - len n))
                   (List.filter (sent_to hash i) pages))) /\
    (forall (j : nat) p, pages !! j = Some p ->
       exists n,
         nodes !! Z.to_nat (hash (fst p) `mod` 3) = Some n /\
         oks !! j
         = Some (len n
                 + Z.of_nat (length (List.filter
                                       (sent_to hash (Z.to_nat (hash (fst p) `mod` 3)))
                                       (take j pages)))
                 <? memory_size n)).
Proof.
  intros Hlen.
  destruct (distribute_total hash nodes pages Hlen) as (nodes' & oks & Hd).
  exists nodes', oks. split; [exact Hd |]. split.
  - now apply distribute_takes with oks.
  - now apply distribute_flags with nodes'.
Qed.

End FirstComeFirstServed.

Section NothingLost.

Variable hash : string -> Z.

Implicit Types (n : Node) (nodes : list Node) (pid dat : string).

Lemma keeps_refl n : keeps 0 n n.
Proof.
  split; [reflexivity |]. split; [reflexivity |].
  intros j r Hj. exists r. repeat split; [exact Hj | lia | lia].
Qed.

Lemma keeps_trans k1 k2 n1 n2 n3 :
  0 <= k1 -> 0 <= k2 ->
  keeps k1 n1 n2 -> keeps k2 n2 n3 -> keeps (k1 + k2) n1 n3.
Proof.
  intros Hk1 Hk2 (Hid1 & Hsz1 & H1) (Hid2 & Hsz2 & H2).
  split; [congruence |]. split; [congruence |].
  intros j r Hj.
  destruct (H1 j r Hj) as (r2 & Hr2 & Hp2 & Hd2 & Hc2).
  destruct (H2 j r2 Hr2) as (r3 & Hr3 & Hp3 & Hd3 & Hc3).
  exists r3. split; [exact Hr3 |].
  split; [congruence |]. split; [congruence |].
  intros Hmin Hmax.
  assert (Hb2 : access_count r <= access_count r2 <= access_count r + k1)
    by (apply Hc2; lia).
  assert (Hb3 : access_count r2 <= access_count r3 <= access_count r2 + k2)
    by (apply Hc3; lia).
  lia.
Qed.

Lemma keeps_more k k' n n' : 0 <= k <= k' -> keeps k n n' -> keeps k' n n'.
Proof.
  intros Hk (Hid & Hsz & H). split; [exact Hid |]. split; [exact Hsz |].
  intros j r Hj. destruct (H j r Hj) as (r' & Hr' & Hp & Hd & Hc).
  exists r'. split; [exact Hr' |]. split; [exact Hp |]. split; [exact Hd |].
  intros Hmin Hmax.
  assert (access_count r <= access_count r' <= access_count r + k)
    by (apply Hc; lia).
  lia.
Qed.

Lemma access_page_keeps n pid : keeps 1 n (fst (access_page n pid)).
Proof.
  split; [apply access_page_node_id |].
  split; [apply access_page_memory_size |].
  intros j r Hj. exists (bump pid r). rewrite access_page_memory.
  split; [now apply lookup_map_bump |].
  split; [apply bump_page_id |]. split; [apply bump_data |].
  intros Hmin Hmax. unfold bump. destruct (is_page pid r); simpl; [| lia].
  rewrite wrap64_small by (unfold is_int64; lia). lia.
Qed.

Lemma allocate_page_keeps n pid dat :
  keeps 0 n (fst (allocate_page n pid dat)).
Proof.
  split; [apply allocate_page_node_id |].
  split; [apply allocate_page_memory_size |].
  intros j r Hj. exists r. rewrite allocate_page_memory.
  split; [now apply lookup_app_l_Some |]. repeat split; lia.
Qed.

Lemma lookups_in_cons c cs :
  lookups_in (c :: cs) = (if is_access c then 1 else 0) + lookups_in cs.
Proof.
  unfold lookups_in. simpl. destruct (is_access c); simpl length; lia.
Qed.

Lemma lookups_in_nonneg cs : 0 <= lookups_in cs.
Proof. unfold lookups_in. lia. Qed.

(** One call keeps every node, with one lookup at most. *)
Lemma do_call_keeps nodes c nodes' :
  do_call hash nodes c = Some nodes' ->
  forall (i : nat) n, nodes !! i = Some n ->
    exists n', nodes' !! i = Some n' /\
               keeps (if is_access c then 1 else 0) n n'.
Proof.
  destruct c as [pid dat | pid]; simpl.
  - destruct (distribute_page hash nodes pid dat) as [[nodes1 ok]|] eqn:E;
      [| discriminate].
    simpl. intros [= <-] i n Hi.
    apply distribute_page_inv in E as (m & Hm & -> & _).
    destruct (decide (i = Z.to_nat (node_idx hash pid))) as [-> | Hne].
    + assert (m = n) as -> by congruence.
      exists (fst (allocate_page n pid dat)). split.
      * apply list_lookup_insert_eq. now apply lookup_lt_Some in Hm.
      * apply allocate_page_keeps.
    + exists n. split; [| apply keeps_refl].
      rewrite list_lookup_insert_ne; [exact Hi | congruence].
  - intros [= <-] i n Hi.
    destruct (gui_access_page_nodes nodes pid i n Hi) as [H | H].
    + exists n. split; [exact H |].
      apply keeps_more with 0; [lia | apply keeps_refl].
    + eexists. split; [exact H | apply access_page_keeps].
Qed.

Lemma run_keeps cs : forall nodes nodes',
  run hash nodes cs = Some nodes' ->
  forall (i : nat) n, nodes !! i = Some n ->
    exists n', nodes' !! i = Some n' /\ keeps (lookups_in cs) n n'.
Proof.
  induction cs as [|c cs IH]; intros nodes nodes'; simpl.
  - intros [= <-] i n Hi. exists n. split; [exact Hi | apply keeps_refl].
  - destruct (do_call hash nodes c) as [nodes1|] eqn:E; [| discriminate].
    intros Hrun i n Hi.
    destruct (do_call_keeps nodes c nodes1 E i n Hi) as (n1 & Hn1 & Hk1).
    destruct (IH nodes1 nodes' Hrun i n1 Hn1) as (n' & Hn' & Hk).
    exists n'. split; [exact Hn' |]. rewrite lookups_in_cons.
    apply keeps_trans with n1; try assumption.
    + destruct (is_access c); lia.
    + apply lookups_in_nonneg.
Qed.

Lemma length_all_rows nodes :
  Z.of_nat (length (all_rows nodes)) = foldr Z.add 0 (List.map len nodes).
Proof.
  unfold all_rows. induction nodes as [|n nodes IH]; simpl; [reflexivity |].
  rewrite length_app, Nat2Z.inj_add, IH. reflexivity.
Qed.

(** X6: nothing stored is ever lost. From a cluster of three nodes, every
    sequence of allocations and lookups runs to a cluster in which every
    node has its [node_id] and [memory_size] and every row that was
    stored is still in its node at its position, with the same [page_id]
    and [data]: no call removes, moves or overwrites a page. An access
    count that is an [int64] with room for the lookups of the sequence
    (count plus their number is at most the [int64] maximum) is not
    lower afterwards and has grown by at most their number. *)
Theorem stored_pages_are_kept nodes cs :
  length nodes = 3%nat ->
  exists nodes',
    run hash nodes cs = Some nodes' /\
    forall (i : nat) n, nodes !! i = Some n ->
      exists n',
        nodes' !! i = Some n' /\
        node_id n' = node_id n /\
        memory_size n' = memory_size n /\
        forall (j : nat) r, memory n !! j = Some r ->
          exists r', memory n' !! j = Some r' /\
            page_id r' = page_id r /\ data r' = data r /\
            (int64_min <= access_count r ->
             access_count r + lookups_in cs <= int64_max ->
             access_count r <= access_count r'
             <= access_count r + lookups_in cs).
Proof.
  intros Hlen. destruct (run_total hash nodes cs Hlen) as [nodes' Hrun].
  exists nodes'. split; [exact Hrun |].
  intros i n Hi.
  destruct (run_keeps cs nodes nodes' Hrun i n Hi) as (n' & Hn' & Hk).
  exists n'. split; [exact Hn' |]. exact Hk.
Qed.

(** X7: the cluster never holds more rows than the capacities of its
    nodes add up to. From a cluster of three nodes within capacity, after
    any sequence of allocations and lookups the total number of rows is
    at most the sum of the three [memory_size] values, which the run does
    not change: at most nine for the module's [nodes]. *)
Theorem total_rows_bounded nodes cs :
  length nodes = 3%nat ->
  Forall within_capacity nodes ->
  exists nodes',
    run hash nodes cs = Some nodes' /\
    Z.of_nat (length (all_rows nodes'))
    <= foldr Z.add 0 (List.map memory_size nodes).
Proof.
  intros Hlen Hcap. destruct (run_total hash nodes cs Hlen) as [nodes' Hrun].
  exists nodes'. split; [exact Hrun |].
  apply run_steps in Hrun as [Hlen' Hsteps].
  assert (Hrel : Forall2 (fun n n' => memory_size n' = memory_size n /\
                                      within_capacity n') nodes nodes').
  { apply Forall2_same_length_lookup_2; [congruence |].
    intros i n n' Hi Hi'. destruct (Hsteps i n Hi) as (n1 & Hn1 & Hs).
    assert (n1 = n') as -> by congruence. split.
    - now destruct (node_steps_fixed hash i n n' Hs).
    - apply (node_steps_within hash i n n' Hs).
      now apply (proj1 (Forall_lookup _ _) Hcap i). }
  rewrite length_all_rows. clear -Hrel.
  induction Hrel as [|n n' nodes nodes' [Hsz Hw] _ IH]; simpl; [lia |].
  unfold within_capacity in Hw. lia.
Qed.

End NothingLost.

Section LookupAccounting.

Variable hash : string -> Z.

Implicit Types (n : Node) (nodes : list Node) (p q pid dat : string).
Implicit Types (qs : list string).

Lemma gui_access_page_routed nodes p :
  routed hash nodes -> routed hash (fst (gui_access_page nodes p)).
Proof.
  intros Hr. apply (run_routed hash nodes [Access p]); [reflexivity | exact Hr].
Qed.

(** In a routed cluster one lookup bumps, in every node, the rows that
    carry the identifier. *)
Lemma gui_access_page_memories nodes p :
  length nodes = 3%nat ->
  routed hash nodes ->
  List.map memory (fst (gui_access_page nodes p))
  = List.map (fun n => List.map (bump p) (memory n)) nodes.
Proof.
  intros Hlen Hr. destruct (target_exists hash nodes p Hlen) as [n Hn].
  rewrite (routed_lookup hash nodes n p Hr Hn). simpl.
  apply list_eq. intros i.
  change (List.map memory) with (fmap (M:=list) memory).
  change (List.map (fun n => List.map (bump p) (memory n)))
    with (fmap (M:=list) (fun n => List.map (bump p) (memory n))).
  rewrite !list_lookup_fmap.
  destruct (decide (i = Z.to_nat (node_idx hash p))) as [-> | Hne].
  - rewrite list_lookup_insert_eq by (now apply lookup_lt_Some in Hn).
    rewrite Hn. simpl. now rewrite access_page_memory.
  - rewrite list_lookup_insert_ne by congruence.
    destruct (nodes !! i) as [m|] eqn:Hi; simpl; [| reflexivity].
    f_equal. symmetry. apply map_bump_miss. apply List.Forall_forall.
    intros r Hin Heq. apply Hne. rewrite <- Heq. symmetry.
    now apply (Hr i m r).
Qed.

Lemma gui_access_page_fixed nodes p :
  List.map node_id (fst (gui_access_page nodes p)) = List.map node_id nodes /\
  List.map memory_size (fst (gui_access_page nodes p))
  = List.map memory_size nodes.
Proof.
  assert (H : Forall2 (fun n' n => node_id n' = node_id n /\
                                   memory_size n' = memory_size n)
                (fst (gui_access_page nodes p)) nodes).
  { apply Forall2_same_length_lookup_2; [apply gui_access_page_length |].
    intros i n' n Hi' Hi.
    destruct (gui_access_page_nodes nodes p i n Hi) as [H | H];
      rewrite H in Hi'; injection Hi' as <-.
    - now split.
    - split; [apply access_page_node_id | apply access_page_memory_size]. }
  induction H as [|n' n l' l [Hid Hsz] _ [IH1 IH2]]; simpl; [now split |].
  split; congruence.
Qed.

Lemma occurrences_cons q p qs :
  occurrences q (p :: qs)
  = (if String.eqb q p then 1 else 0) + occurrences q qs.
Proof.
  unfold occurrences. simpl. destruct (String.eqb q p); simpl length; lia.
Qed.

Lemma occurrences_bounds q qs : 0 <= occurrences q qs <= Z.of_nat (length qs).
Proof.
  unfold occurrences. pose proof (List.filter_length_le (String.eqb q) qs). lia.
Qed.

Lemma looked_up_nil r : is_int64 (access_count r) -> looked_up [] r = r.
Proof.
  intros H. destruct r as [i d c]. unfold looked_up, occurrences. simpl in *.
  now rewrite Z.add_0_r, wrap64_small.
Qed.

Lemma looked_up_cons p qs r : looked_up qs (bump p r) = looked_up (p :: qs) r.
Proof.
  unfold looked_up. rewrite bump_page_id, bump_data, occurrences_cons.
  unfold bump, is_page. destruct (String.eqb (page_id r) p); simpl; f_equal.
  rewrite wrap64_add_l. f_equal. lia.
Qed.

Lemma bump_int64 p r :
  is_int64 (access_count r) -> is_int64 (access_count (bump p r)).
Proof.
  intros H. unfold bump. destruct (is_page p r); simpl; [| exact H].
  apply wrap64_range.
Qed.

Lemma gui_access_page_int64 nodes p :
  int64_counts nodes -> int64_counts (fst (gui_access_page nodes p)).
Proof.
  intros H i n1 r Hi1 Hr.
  assert (Hi : is_Some (nodes !! i)).
  { apply lookup_lt_is_Some. rewrite <- (gui_access_page_length nodes p).
    now apply lookup_lt_Some in Hi1. }
  destruct Hi as [n Hi].
  destruct (gui_access_page_nodes nodes p i n Hi) as [H1 | H1];
    rewrite H1 in Hi1; injection Hi1 as <-.
  - now apply (H i n r).
  - rewrite access_page_memory in Hr.
    apply in_map_iff in Hr as (r0 & <- & Hr0).
    apply bump_int64. now apply (H i n r0).
Qed.

Lemma run_lookups qs : forall nodes,
  length nodes = 3%nat ->
  routed hash nodes ->
  int64_counts nodes ->
  exists nodes',
    run hash nodes (List.map Access qs) = Some nodes' /\
    List.map node_id nodes' = List.map node_id nodes /\
    List.map memory_size nodes' = List.map memory_size nodes /\
    List.map memory nodes'
    = List.map (fun n => List.map (looked_up qs) (memory n)) nodes.
Proof.
  induction qs as [|p qs IH]; intros nodes Hlen Hr Hint; simpl.
  - exists nodes. repeat split. apply List.map_ext_in. intros n Hn.
    apply list_elem_of_In, list_elem_of_lookup in Hn as [i Hi].
    rewrite <- (List.map_id (memory n)) at 1.
    apply List.map_ext_in. intros r Hin.
    symmetry. apply looked_up_nil. now apply (Hint i n r).
  - destruct (IH (fst (gui_access_page nodes p)))
      as (nodes' & Hrun & Hid & Hsz & Hmem).
    { now rewrite gui_access_page_length. }
    { now apply gui_access_page_routed. }
    { now apply gui_access_page_int64. }
    destruct (gui_access_page_fixed nodes p) as [Hid1 Hsz1].
    exists nodes'. split; [exact Hrun |].
    split; [congruence |]. split; [congruence |].
    rewrite Hmem.
    rewrite <- (List.map_map memory (List.map (looked_up qs))).
    rewrite (gui_access_page_memories nodes p Hlen Hr).
    rewrite List.map_map. apply List.map_ext. intros n.
    rewrite List.map_map. apply List.map_ext. intros r.
    apply looked_up_cons.
Qed.

(** X8: access accounting on the cluster. From a cluster of three nodes
    whose rows are where their identifiers are distributed to and whose
    access counts are [int64] values, any sequence of lookups runs to a
    cluster with the same nodes and rows in which the access count of
    every row is its old count plus the number of lookups of that row's
    identifier in the sequence, stored in [int64]: exactly that sum
    whenever the sum does not exceed the [int64] maximum, wrapped
    otherwise. Lookups of other identifiers and page faults leave a
    row's count as it was. *)
Theorem lookups_are_counted nodes qs :
  length nodes = 3%nat ->
  routed hash nodes ->
  int64_counts nodes ->
  exists nodes',
    run hash nodes (List.map Access qs) = Some nodes' /\
    List.map node_id nodes' = List.map node_id nodes /\
    List.map memory_size nodes' = List.map memory_size nodes /\
    List.map memory nodes'
    = List.map
        (fun n =>
           List.map
             (fun r => mkPageRecord (page_id r) (data r)
                         (wrap64 (access_count r
                                  + occurrences (page_id r) qs)))
             (memory n))
        nodes /\
    (forall (i : nat) n r,
       nodes !! i = Some n -> In r (memory n) ->
       access_count r + occurrences (page_id r) qs <= int64_max ->
       wrap64 (access_count r + occurrences (page_id r) qs)
       = access_count r + occurrences (page_id r) qs).
Proof.
  intros Hlen Hr Hint.
  destruct (run_lookups qs nodes Hlen Hr Hint)
    as (nodes' & Hrun & Hid & Hsz & Hmem).
  exists nodes'. repeat (split; [assumption |]).
  intros i n r Hi Hin Hroom. apply wrap64_small.
  pose proof (Hint i n r Hi Hin) as [Hmin _].
  pose proof (occurrences_bounds (page_id r) qs).
  unfold is_int64. lia.
Qed.

End LookupAccounting.

Section Session.

Variable hash : string -> Z.

Implicit Types (n : Node) (nodes : list Node) (p q pid dat : string).
Implicit Types (pages : list (string * string)) (qs : list string).

Lemma node_eq n n' :
  node_id n = node_id n' -> memory n = memory n' ->
  memory_size n = memory_size n' -> n = n'.
Proof. destruct n, n'; simpl. now intros -> -> ->. Qed.

Lemma nodes_eq nodes : forall nodes',
  List.map node_id nodes = List.map node_id nodes' ->
  List.map memory nodes = List.map memory nodes' ->
  List.map memory_size nodes = List.map memory_size nodes' ->
  nodes = nodes'.
Proof.
  induction nodes as [|n nodes IH]; intros [|n' nodes']; simpl;
    try discriminate; [reflexivity |].
  intros [= Hid Hids] [= Hmem Hmems] [= Hsz Hszs].
  f_equal; [now apply node_eq | now apply IH].
Qed.

Lemma distribute_routed pages nodes nodes' oks :
  routed hash nodes ->
  distribute hash nodes pages = Some (nodes', oks) ->
  routed hash nodes'.
Proof.
  intros Hr Hd. apply distribute_run in Hd.
  now apply (run_routed hash nodes _ nodes' Hd).
Qed.

Lemma looked_up_new_row qs (p : string * string) :
  looked_up qs (new_row p)
  = mkPageRecord (fst p) (snd p) (wrap64 (occurrences (fst p) qs)).
Proof. reflexivity. Qed.

(** After the loop from the initial cluster every access count is 0. *)
Lemma distribute_int64_counts pages nodes1 oks :
  distribute hash nodes_init pages = Some (nodes1, oks) ->
  int64_counts nodes1.
Proof.
  intros Hd i n r Hi Hin.
  apply distribute_from_init in Hd as (_ & Hlen & Hrows).
  assert (Hi3 : (i < 3)%nat) by (apply lookup_lt_Some in Hi; lia).
  destruct (Hrows i Hi3) as (n' & Hn' & _ & _ & Hmem).
  assert (n' = n) as -> by congruence.
  rewrite Hmem in Hin. apply in_map_iff in Hin as (pg & <- & _).
  simpl. unfold is_int64, int64_min, int64_max. lia.
Qed.

Lemma wrap64_occurrences q qs :
  Z.of_nat (length qs) <= int64_max ->
  wrap64 (occurrences q qs) = occurrences q qs.
Proof.
  intros H. pose proof (occurrences_bounds q qs). apply wrap64_small.
  unfold is_int64, int64_min, int64_max in *. lia.
Qed.

(** X9: the state of the program after the module has run its loop and
    the GUI has served any sequence of lookups. Whatever the pairs given
    to the loop and whatever the identifiers looked up, node [i] holds,
    in loop order, the first three pairs with [hash(page_id) % 3 = i],
    each with an access count equal to the number of lookups of its
    identifier as an [int64] holds it: that number itself for every
    sequence of at most [2^63 - 1] lookups. Node ids and capacities are
    those of the initial cluster. *)
Theorem state_after_session pages qs :
  exists nodes1 oks nodes2,
    distribute hash nodes_init pages = Some (nodes1, oks) /\
    run hash nodes1 (List.map Access qs) = Some nodes2 /\
    nodes2
    = List.map
        (fun i : nat =>
           {| node_id := Z.of_nat i;
              memory :=
                List.map
                  (fun pg : string * string =>
                     mkPageRecord (fst pg) (snd pg)
                       (wrap64 (occurrences (fst pg) qs)))
                  (take 3 (List.filter (sent_to hash i) pages));
              memory_size := 3 |})
        [0; 1; 2]%nat /\
    (Z.of_nat (length qs) <= int64_max ->
     nodes2
     = List.map
         (fun i : nat =>
            {| node_id := Z.of_nat i;
               memory :=
                 List.map
                   (fun pg : string * string =>
                      mkPageRecord (fst pg) (snd pg)
                        (occurrences (fst pg) qs))
                   (take 3 (List.filter (sent_to hash i) pages));
               memory_size := 3 |})
         [0; 1; 2]%nat).
Proof.
  destruct (distribute_total hash nodes_init pages eq_refl)
    as (nodes1 & oks & Hd).
  pose proof (distribute_routed _ _ _ _ (nodes_init_routed hash) Hd) as Hr1.
  pose proof (distribute_takes hash pages _ _ _ Hd) as Htakes.
  pose proof (distribute_int64_counts pages nodes1 oks Hd) as Hint1.
  destruct (distribute_from_init hash pages nodes1 oks Hd) as (_ & Hlen1 & Hrows).
  destruct (run_lookups hash qs nodes1 Hlen1 Hr1 Hint1)
    as (nodes2 & Hrun & Hid & Hsz & Hmem).
  exists nodes1, oks, nodes2. split; [exact Hd |]. split; [exact Hrun |].
  assert (Hexact :
    nodes2
    = List.map
        (fun i : nat =>
           {| node_id := Z.of_nat i;
              memory :=
                List.map
                  (fun pg : string * string =>
                     mkPageRecord (fst pg) (snd pg)
                       (wrap64 (occurrences (fst pg) qs)))
                  (take 3 (List.filter (sent_to hash i) pages));
              memory_size := 3 |})
        [0; 1; 2]%nat);
    [| split; [exact Hexact |];
       intros Hq; rewrite Hexact; apply List.map_ext; intros i;
       f_equal; apply List.map_ext; intros pg; f_equal;
       now apply wrap64_occurrences].
  destruct (Hrows 0%nat ltac:(lia)) as (a0 & Ha0 & Hi0 & Hs0 & _).
  destruct (Hrows 1%nat ltac:(lia)) as (a1 & Ha1 & Hi1 & Hs1 & _).
  destruct (Hrows 2%nat ltac:(lia)) as (a2 & Ha2 & Hi2 & Hs2 & _).
  destruct (Htakes 0%nat _ eq_refl) as (b0 & Hb0 & Hm0).
  destruct (Htakes 1%nat _ eq_refl) as (b1 & Hb1 & Hm1).
  destruct (Htakes 2%nat _ eq_refl) as (b2 & Hb2 & Hm2).
  assert (b0 = a0) as -> by congruence.
  assert (b1 = a1) as -> by congruence.
  assert (b2 = a2) as -> by congruence.
  assert (nodes1 = [a0; a1; a2]) as ->.
  { destruct nodes1 as [|x0 [|x1 [|x2 [|x3 rest]]]]; try discriminate.
    simpl in Ha0, Ha1, Ha2. congruence. }
  simpl in Hm0, Hm1, Hm2.
  apply nodes_eq; simpl.
  - rewrite Hid. simpl. congruence.
  - rewrite Hmem. simpl. rewrite Hm0, Hm1, Hm2.
    rewrite !List.map_map. reflexivity.
  - rewrite Hsz. simpl. congruence.
Qed.

End Session.

(** * Further properties of the cipher *)

Section Strictness.

Implicit Types (c b k : Z) (bs rest : list Z) (t : text).

Ltac split_tests :=
  repeat match goal with
    | |- context [?a <=? ?b] => destruct (Z.leb_spec a b); try lia
    | |- context [?a <? ?b] => destruct (Z.ltb_spec a b); try lia
    end.

Lemma continuation_range b : continuation b = true -> 0x80 <= b < 0xC0.
Proof. unfold continuation. split_tests; simpl; (discriminate || lia). Qed.

(** The encoder on the code point that the decoder reads from a
    well-formed sequence of each length. *)
Lemma encode_point_1 b0 : 0 <= b0 < 0x80 -> encode_point b0 = Some [b0].
Proof. intros H. unfold encode_point. now split_tests. Qed.

Lemma encode_point_2 b0 b1 :
  0xC2 <= b0 < 0xE0 -> 0x80 <= b1 < 0xC0 ->
  encode_point ((b0 - 0xC0) * 64 + (b1 - 0x80)) = Some [b0; b1].
Proof.
  intros H0 H1. unfold encode_point. split_tests.
  do 2 f_equal; [| f_equal]; Z.div_mod_to_equations; lia.
Qed.

Lemma encode_point_3 b0 b1 b2 :
  0xE0 <= b0 < 0xF0 -> 0x80 <= b1 < 0xC0 -> 0x80 <= b2 < 0xC0 ->
  0x800 <= (b0 - 0xE0) * 4096 + (b1 - 0x80) * 64 + (b2 - 0x80) ->
  surrogate ((b0 - 0xE0) * 4096 + (b1 - 0x80) * 64 + (b2 - 0x80)) = false ->
  encode_point ((b0 - 0xE0) * 4096 + (b1 - 0x80) * 64 + (b2 - 0x80))
  = Some [b0; b1; b2].
Proof.
  intros H0 H1 H2 Hmin Hs. unfold encode_point. rewrite Hs. split_tests.
  do 2 f_equal; [| f_equal; [| f_equal]]; Z.div_mod_to_equations; lia.
Qed.

Lemma encode_point_4 b0 b1 b2 b3 :
  0xF0 <= b0 < 0xF5 ->
  0x80 <= b1 < 0xC0 -> 0x80 <= b2 < 0xC0 -> 0x80 <= b3 < 0xC0 ->
  0x10000 <= (b0 - 0xF0) * 262144 + (b1 - 0x80) * 4096
             + (b2 - 0x80) * 64 + (b3 - 0x80) < 0x110000 ->
  encode_point ((b0 - 0xF0) * 262144 + (b1 - 0x80) * 4096
                + (b2 - 0x80) * 64 + (b3 - 0x80))
  = Some [b0; b1; b2; b3].
Proof.
  intros H0 H1 H2 H3 Hc. unfold encode_point. split_tests.
  do 2 f_equal; [| f_equal; [| f_equal; [| f_equal]]];
    Z.div_mod_to_equations; lia.
Qed.

End Strictness.

Section DecodeInversion.

Implicit Types (c b k : Z) (bs rest : list Z) (t : text).

Lemma fmap_cons_Some c (o : option text) t :
  cons c <$> o = Some t -> exists t', o = Some t' /\ t = c :: t'.
Proof. destruct o as [t'|]; simpl; [| discriminate]. intros [= <-]. now exists t'. Qed.

(** The ways in which the decoder accepts a non-empty sequence. *)
Lemma bytes_decode_cons b0 r0 t :
  bytes_decode (b0 :: r0) = Some t ->
  (0 <= b0 < 0x80 /\
   exists t', bytes_decode r0 = Some t' /\ t = b0 :: t')
  \/ (exists b1 r1 t',
        r0 = b1 :: r1 /\ 0xC2 <= b0 < 0xE0 /\ 0x80 <= b1 < 0xC0 /\
        bytes_decode r1 = Some t' /\
        t = ((b0 - 0xC0) * 64 + (b1 - 0x80)) :: t')
  \/ (exists b1 b2 r2 t',
        r0 = b1 :: b2 :: r2 /\ 0xE0 <= b0 < 0xF0 /\
        0x80 <= b1 < 0xC0 /\ 0x80 <= b2 < 0xC0 /\
        0x800 <= (b0 - 0xE0) * 4096 + (b1 - 0x80) * 64 + (b2 - 0x80) /\
        surrogate ((b0 - 0xE0) * 4096 + (b1 - 0x80) * 64 + (b2 - 0x80))
          = false /\
        bytes_decode r2 = Some t' /\
        t = ((b0 - 0xE0) * 4096 + (b1 - 0x80) * 64 + (b2 - 0x80)) :: t')
  \/ (exists b1 b2 b3 r3 t',
        r0 = b1 :: b2 :: b3 :: r3 /\ 0xF0 <= b0 < 0xF5 /\
        0x80 <= b1 < 0xC0 /\ 0x80 <= b2 < 0xC0 /\ 0x80 <= b3 < 0xC0 /\
        0x10000 <= (b0 - 0xF0) * 262144 + (b1 - 0x80) * 4096
                   + (b2 - 0x80) * 64 + (b3 - 0x80) < 0x110000 /\
        bytes_decode r3 = Some t' /\
        t = ((b0 - 0xF0) * 262144 + (b1 - 0x80) * 4096
             + (b2 - 0x80) * 64 + (b3 - 0x80)) :: t').
Proof.
  intros H. simpl in H.
  destruct ((0 <=? b0) && (b0 <? 128)) eqn:T1.
  { left. apply andb_prop in T1 as [Ha Hb].
    apply Z.leb_le in Ha. apply Z.ltb_lt in Hb.
    split; [lia |]. now apply fmap_cons_Some. }
  destruct ((194 <=? b0) && (b0 <? 224)) eqn:T2.
  { right; left. apply andb_prop in T2 as [Ha Hb].
    apply Z.leb_le in Ha. apply Z.ltb_lt in Hb.
    destruct r0 as [|b1 r1]; [discriminate |].
    destruct (continuation b1) eqn:C1; [| discriminate].
    apply continuation_range in C1.
    apply fmap_cons_Some in H as (t' & Ht' & ->).
    exists b1, r1, t'. repeat split; (assumption || lia). }
  destruct ((224 <=? b0) && (b0 <? 240)) eqn:T3.
  { right; right; left. apply andb_prop in T3 as [Ha Hb].
    apply Z.leb_le in Ha. apply Z.ltb_lt in Hb.
    destruct r0 as [|b1 [|b2 r2]]; try discriminate.
    destruct (continuation b1 && continuation b2
              && (2048 <=? (b0 - 224) * 4096 + (b1 - 128) * 64 + (b2 - 128))
              && negb (surrogate ((b0 - 224) * 4096 + (b1 - 128) * 64 + (b2 - 128))))
      eqn:C; [| discriminate].
    apply andb_prop in C as [C Hs]. apply andb_prop in C as [C Hmin].
    apply andb_prop in C as [C1 C2].
    apply continuation_range in C1, C2. apply Z.leb_le in Hmin.
    apply negb_true_iff in Hs.
    apply fmap_cons_Some in H as (t' & Ht' & ->).
    exists b1, b2, r2, t'. repeat split; (assumption || lia). }
  destruct ((240 <=? b0) && (b0 <? 245)) eqn:T4; [| discriminate].
  right; right; right. apply andb_prop in T4 as [Ha Hb].
  apply Z.leb_le in Ha. apply Z.ltb_lt in Hb.
  destruct r0 as [|b1 [|b2 [|b3 r3]]]; try discriminate.
  destruct (continuation b1 && continuation b2 && continuation b3
            && (65536 <=? (b0 - 240) * 262144 + (b1 - 128) * 4096
                          + (b2 - 128) * 64 + (b3 - 128))
            && ((b0 - 240) * 262144 + (b1 - 128) * 4096
                + (b2 - 128) * 64 + (b3 - 128) <? 1114112))
    eqn:C; [| discriminate].
  apply andb_prop in C as [C Hmax]. apply andb_prop in C as [C Hmin].
  apply andb_prop in C as [C C3]. apply andb_prop in C as [C1 C2].
  apply continuation_range in C1, C2, C3.
  apply Z.leb_le in Hmin. apply Z.ltb_lt in Hmax.
  apply fmap_cons_Some in H as (t' & Ht' & ->).
  exists b1, b2, b3, r3, t'. repeat split; (assumption || lia).
Qed.

End DecodeInversion.

Section CipherInverse.

Implicit Types (c b k : Z) (bs rest e : list Z) (t : text).

(** The decoder accepts only what the encoder produces. *)
Lemma bytes_decode_encode bs : forall t,
  bytes_decode bs = Some t ->
  str_encode t = Some bs /\ Forall is_byte bs.
Proof.
  induction bs as [bs IH] using (induction_ltof1 _ (@length Z)).
  unfold ltof in IH. intros t H.
  destruct bs as [|b0 r0].
  { injection H as <-. split; [reflexivity | constructor]. }
  apply bytes_decode_cons in H
    as [(H0 & t' & Ht' & ->)
       | [(b1 & r1 & t' & -> & H0 & H1 & Ht' & ->)
         | [(b1 & b2 & r2 & t' & -> & H0 & H1 & H2 & Hmin & Hs & Ht' & ->)
           | (b1 & b2 & b3 & r3 & t' & -> & H0 & H1 & H2 & H3 & Hc & Ht' & ->)]]].
  - destruct (IH r0 ltac:(simpl; lia) t' Ht') as [Henc Hb].
    simpl. rewrite (encode_point_1 b0 H0), Henc.
    split; [reflexivity |]. constructor; [unfold is_byte; lia | exact Hb].
  - destruct (IH r1 ltac:(simpl; lia) t' Ht') as [Henc Hb].
    simpl. rewrite (encode_point_2 b0 b1 H0 H1), Henc.
    split; [reflexivity |].
    repeat (constructor; [unfold is_byte; lia |]). exact Hb.
  - destruct (IH r2 ltac:(simpl; lia) t' Ht') as [Henc Hb].
    simpl. rewrite (encode_point_3 b0 b1 b2 H0 H1 H2 Hmin Hs), Henc.
    split; [reflexivity |].
    repeat (constructor; [unfold is_byte; lia |]). exact Hb.
  - destruct (IH r3 ltac:(simpl; lia) t' Ht') as [Henc Hb].
    simpl. rewrite (encode_point_4 b0 b1 b2 b3 H0 H1 H2 H3 Hc), Henc.
    split; [reflexivity |].
    repeat (constructor; [unfold is_byte; lia |]). exact Hb.
Qed.

Lemma uint8_all_Some bs bs' : uint8_all bs = Some bs' -> bs' = bs.
Proof.
  revert bs'. induction bs as [|b bs IH]; intros bs'; simpl.
  - now intros [= <-].
  - unfold uint8 at 1. destruct ((0 <=? b) && (b <? 256)); [| discriminate].
    destruct (uint8_all bs) as [l|]; [| discriminate].
    intros [= <-]. now rewrite (IH l eq_refl).
Qed.

(** X10: [encrypt] undoes [decrypt]. When [decrypt] accepts a [bytes]
    object under a key byte and returns a text, [encrypt] of that text
    under the same key returns exactly those bytes: the decoder accepts
    no second spelling of a text, so two different ciphertexts never
    decrypt to the same text. *)
Theorem encrypt_decrypt e k t :
  Forall is_byte e ->
  0 <= k <= 255 ->
  decrypt e k = Some t ->
  encrypt t k = Some e.
Proof.
  intros He Hk Hd. unfold decrypt in Hd.
  destruct (uint8_all (List.map (fun b => Z.lxor b k) e)) as [bs|] eqn:Hu;
    [| discriminate].
  apply uint8_all_Some in Hu as ->.
  apply bytes_decode_encode in Hd as [Henc _].
  unfold encrypt. rewrite Henc, map_lxor_twice.
  now apply uint8_all_bytes.
Qed.

End CipherInverse.

Section CipherErrors.

Implicit Types (c b k : Z) (bs rest e : list Z) (t : text).

Ltac split_tests :=
  repeat match goal with
    | |- context [?a <=? ?b] => destruct (Z.leb_spec a b); try lia
    | |- context [?a <? ?b] => destruct (Z.ltb_spec a b); try lia
    end.

Lemma surrogate_range c : surrogate c = true -> 0xD800 <= c <= 0xDFFF.
Proof.
  unfold surrogate. intros H. apply andb_prop in H as [Ha Hb].
  apply Z.leb_le in Ha. apply Z.leb_le in Hb. lia.
Qed.

Lemma encode_point_surrogate c : surrogate c = true -> encode_point c = None.
Proof.
  intros H. pose proof (surrogate_range c H). unfold encode_point. rewrite H.
  now split_tests.
Qed.

Lemma encode_point_Some c bs :
  encode_point c = Some bs ->
  scalar c /\ (1 <= length bs <= 4)%nat.
Proof.
  unfold encode_point, scalar.
  destruct (Z.ltb_spec c 0); [discriminate |].
  destruct (Z.ltb_spec c 0x80).
  { intros [= <-]. simpl. repeat split; try lia.
    apply surrogate_false. lia. }
  destruct (Z.ltb_spec c 0x800).
  { intros [= <-]. simpl. repeat split; try lia.
    apply surrogate_false. lia. }
  destruct (Z.ltb_spec c 0x10000).
  { destruct (surrogate c) eqn:Hs; [discriminate |].
    intros [= <-]. simpl. repeat split; lia. }
  destruct (Z.ltb_spec c 0x110000); [| discriminate].
  intros [= <-]. simpl. repeat split; try lia.
  apply surrogate_false. lia.
Qed.

Lemma str_encode_Some t : forall bs,
  str_encode t = Some bs ->
  Forall scalar t /\ (length t <= length bs <= 4 * length t)%nat.
Proof.
  induction t as [|c t IH]; intros bs; simpl.
  - intros [= <-]. split; [constructor | simpl; lia].
  - destruct (encode_point c) as [bc|] eqn:Ec; [| discriminate].
    destruct (str_encode t) as [bt|]; [| discriminate].
    intros [= <-]. apply encode_point_Some in Ec as [Hc Hl].
    destruct (IH bt eq_refl) as [Ht Hlt].
    split; [now constructor |]. rewrite length_app. lia.
Qed.

Lemma str_encode_surrogate t :
  Exists (fun c => surrogate c = true) t -> str_encode t = None.
Proof.
  induction 1 as [c t Hc | c t _ IH]; simpl.
  - now rewrite (encode_point_surrogate c Hc).
  - rewrite IH. now destruct (encode_point c).
Qed.

Lemma scalar_or_surrogate t :
  Forall code_point t ->
  Forall scalar t \/ Exists (fun c => surrogate c = true) t.
Proof.
  induction 1 as [|c t Hc _ [IH | IH]].
  - left. constructor.
  - destruct (surrogate c) eqn:Hs.
    + right. now constructor.
    + left. constructor; [now split | exact IH].
  - right. now constructor 2.
Qed.

Lemma encrypt_Some t k e :
  encrypt t k = Some e ->
  exists bs, str_encode t = Some bs /\ e = List.map (fun b => Z.lxor b k) bs.
Proof.
  unfold encrypt. destruct (str_encode t) as [bs|]; [| discriminate].
  intros H. apply uint8_all_Some in H. now exists bs.
Qed.

(** X11: when [encrypt] raises. For a Python text and a key byte,
    [encrypt] raises exactly when the text contains a surrogate code
    point (which has no UTF-8 encoding); on every other text it returns
    the cipher bytes. *)
Theorem encrypt_raises_iff_surrogate t k :
  Forall code_point t ->
  0 <= k <= 255 ->
  (encrypt t k = None <-> Exists (fun c => surrogate c = true) t) /\
  (encrypt t k <> None <-> Forall scalar t).
Proof.
  intros Ht Hk. assert (Hkb : is_byte k) by (unfold is_byte; lia).
  assert (Hok : Forall scalar t -> encrypt t k <> None).
  { intros Hs. destruct (str_encode_decode t Hs) as (bs & Henc & Hb & _).
    unfold encrypt. rewrite Henc.
    rewrite (uint8_all_bytes _ (map_lxor_bytes k bs Hkb Hb)). discriminate. }
  assert (Hbad : Exists (fun c => surrogate c = true) t -> encrypt t k = None).
  { intros Hs. unfold encrypt. now rewrite (str_encode_surrogate t Hs). }
  split; split.
  - intros Hnone. destruct (scalar_or_surrogate t Ht) as [Hs | Hs];
      [| exact Hs]. now apply Hok in Hs.
  - exact Hbad.
  - intros Hsome. destruct (scalar_or_surrogate t Ht) as [Hs | Hs];
      [exact Hs |]. now apply Hbad in Hs.
  - exact Hok.
Qed.

(** X12: the security demo. On a text without surrogates the label shows
    the text, its cipher bytes under the key [0x55], and the same text
    again as the decrypted value; on a text with a surrogate the handler
    raises and the label is not updated. *)
Theorem demo_security_shows_original t :
  (Forall scalar t ->
   exists data_bytes,
     str_encode t = Some data_bytes /\
     demo_security t
     = Some (t, List.map (fun b => Z.lxor b 0x55) data_bytes, t)) /\
  (Exists (fun c => surrogate c = true) t -> demo_security t = None).
Proof.
  split.
  - intros Hs. destruct (str_encode_decode t Hs) as (bs & Henc & Hb & Hdec).
    assert (Hk : is_byte default_key) by (unfold is_byte, default_key; lia).
    exists bs. split; [exact Henc |].
    unfold demo_security, encrypt, decrypt. rewrite Henc.
    rewrite (uint8_all_bytes _ (map_lxor_bytes default_key bs Hk Hb)).
    rewrite map_lxor_twice, (uint8_all_bytes bs Hb), Hdec. reflexivity.
  - intros Hs. unfold demo_security, encrypt.
    now rewrite (str_encode_surrogate t Hs).
Qed.

Lemma lxor_changes b k : k <> 0 -> Z.lxor b k <> b.
Proof.
  intros Hk H. apply Hk.
  assert (Hback : Z.lxor b (Z.lxor b k) = k).
  { rewrite <- Z.lxor_assoc, Z.lxor_nilpotent. apply Z.lxor_0_l. }
  rewrite H, Z.lxor_nilpotent in Hback. now symmetry.
Qed.

(** X13: the shape of the cipher text. Whatever [encrypt] returns has one
    byte for every byte of the UTF-8 encoding of the text, so between one
    and four bytes per code point; under a non-zero key every byte
    differs from the plain byte at its position, and under the key [0]
    the cipher text is the plain encoding. *)
Theorem encrypt_shape t k e :
  encrypt t k = Some e ->
  exists data_bytes,
    str_encode t = Some data_bytes /\
    length e = length data_bytes /\
    (length t <= length e <= 4 * length t)%nat /\
    (k <> 0 ->
     forall (i : nat) b c,
       data_bytes !! i = Some b -> e !! i = Some c -> c <> b) /\
    (k = 0 -> e = data_bytes).
Proof.
  intros H. apply encrypt_Some in H as (bs & Henc & ->).
  exists bs. split; [exact Henc |].
  rewrite length_map. split; [reflexivity |].
  split; [now apply str_encode_Some in Henc as [_ ?] |].
  split.
  - intros Hk i b c Hb Hc.
    change (List.map (fun b => Z.lxor b k) bs)
      with ((fun b => Z.lxor b k) <$> bs) in Hc.
    rewrite list_lookup_fmap, Hb in Hc. injection Hc as <-.
    now apply lxor_changes.
  - intros ->. rewrite <- (List.map_id bs) at 2. apply List.map_ext.
    intros b. apply Z.lxor_0_r.
Qed.

End CipherErrors.

(** * Properties of the monitoring *)

Section Monitoring.

Implicit Types (n : Node) (nodes : list Node) (q : string).
Implicit Types (rows : list PageRecord) (out : list (string * Z)).

Lemma count_sum_cons q r rows :
  count_sum q (r :: rows)
  = (if is_page q r then access_count r else 0) + count_sum q rows.
Proof. unfold count_sum. simpl. now destruct (is_page q r). Qed.

Lemma count_sum_miss q rows :
  List.filter (is_page q) rows = [] -> count_sum q rows = 0.
Proof. unfold count_sum. now intros ->. Qed.

(** The entry of the grouped sums for an identifier. *)
Lemma groupby_sum_lookup rows q :
  groupby_sum rows !! q
  = match List.filter (is_page q) rows with
    | [] => None
    | _ :: _ => Some (count_sum q rows)
    end.
Proof.
  induction rows as [|r rows IH]; simpl; [apply lookup_empty |].
  rewrite count_sum_cons.
  destruct (is_page q r) eqn:E.
  - apply is_page_true in E. rewrite E, lookup_insert_eq.
    fold (groupby_sum rows). rewrite IH.
    destruct (List.filter (is_page q) rows) eqn:F; simpl.
    + now rewrite (count_sum_miss q rows F).
    + reflexivity.
  - apply is_page_false in E. rewrite lookup_insert_ne by exact E.
    fold (groupby_sum rows). rewrite IH.
    now destruct (List.filter (is_page q) rows).
Qed.

Lemma filter_is_page_cons q rows :
  (exists r0 rest, List.filter (is_page q) rows = r0 :: rest) <->
  (exists r, In r rows /\ page_id r = q).
Proof.
  split.
  - intros (r0 & rest & H). exists r0.
    assert (Hin : In r0 (List.filter (is_page q) rows)) by (rewrite H; now left).
    apply filter_In in Hin as [Hin Hp]. split; [exact Hin |].
    now apply is_page_true.
  - intros (r & Hin & Hr).
    destruct (List.filter (is_page q) rows) as [|r0 rest] eqn:F; [| eauto].
    apply filter_is_page_nil in F. rewrite List.Forall_forall in F.
    now apply F in Hin.
Qed.

Lemma le_snd_total : Total (fun a b : string * Z => snd a <= snd b).
Proof. intros a b. lia. Qed.


Lemma sort_values_exists (s : gmap string Z) : exists out, sort_values s out.
Proof.
  exists (@merge_sort _ (fun a b : string * Z => snd a <= snd b)
            (fun a b => Z.le_dec (snd a) (snd b)) (map_to_list s)).
  split.
  - apply merge_sort_Permutation.
  - apply (@Sorted_merge_sort _ _ _ le_snd_total).
Qed.


End Monitoring.

Section MonitoringAfterSession.

Variable hash : string -> Z.

Implicit Types (n : Node) (nodes : list Node) (q : string).
Implicit Types (rows : list PageRecord) (out : list (string * Z)).
Implicit Types (pages : list (string * string)) (qs : list string).


Lemma is_page_looked_up q qs r : is_page q (looked_up qs r) = is_page q r.
Proof. reflexivity. Qed.


Lemma filter_is_page_looked_up q qs rows :
  List.filter (is_page q) (List.map (looked_up qs) rows)
  = List.map (looked_up qs) (List.filter (is_page q) rows).
Proof.
  induction rows as [|r rows IH]; simpl; [reflexivity |].
  rewrite is_page_looked_up. destruct (is_page q r); simpl; now rewrite IH.
Qed.

Lemma count_sum_zero q rows :
  Forall (fun r => access_count r = 0) rows -> count_sum q rows = 0.
Proof.
  induction 1 as [|r rows Hr _ IH]; [reflexivity |].
  rewrite count_sum_cons, IH, Hr. now destruct (is_page q r).
Qed.


Lemma distribute_fresh_counts pages nodes1 oks :
  distribute hash nodes_init pages = Some (nodes1, oks) ->
  Forall (fun r => access_count r = 0) (all_rows nodes1).
Proof.
  intros Hd. apply distribute_from_init in Hd as (_ & Hlen & Hrows).
  apply List.Forall_forall. intros r Hr.
  apply in_all_rows in Hr as (i & n & Hi & Hin).
  assert (Hi3 : (i < 3)%nat) by (apply lookup_lt_Some in Hi; lia).
  destruct (Hrows i Hi3) as (n' & Hn' & _ & _ & Hmem).
  assert (n' = n) as -> by congruence.
  rewrite Hmem in Hin. now apply in_map_iff in Hin as (pg & <- & _).
Qed.


Lemma distribute_stores_first pages nodes1 oks :
  pages <> [] ->
  distribute hash nodes_init pages = Some (nodes1, oks) ->
  all_rows nodes1 <> [].
Proof.
  intros Hne Hd. destruct pages as [|[pid dat] pages]; [contradiction |].
  pose proof (distribute_takes hash _ _ _ _ Hd) as Htakes.
  destruct (Htakes (Z.to_nat (node_idx hash pid)) _
              (nodes_init_lookup _ (node_idx_lt hash pid)))
    as (n' & Hn' & Hmem).
  simpl in Hmem. unfold sent_to at 1 in Hmem. simpl in Hmem.
  rewrite Nat.eqb_refl in Hmem. simpl in Hmem.
  intros Hnil.
  assert (Hin : In (new_row (pid, dat)) (all_rows nodes1)).
  { apply in_all_rows. exists (Z.to_nat (node_idx hash pid)), n'.
    split; [exact Hn' |]. rewrite Hmem. now left. }
  rewrite Hnil in Hin. destruct Hin.
Qed.

End MonitoringAfterSession.

Section MonitoringSpec.

Variable hash : string -> Z.

Implicit Types (n : Node) (nodes : list Node) (q : string).
Implicit Types (rows : list PageRecord) (out : list (string * Z)).
Implicit Types (pages : list (string * string)) (qs : list string).

Lemma plot_access_stats_entries nodes out :
  plot_access_stats nodes out ->
  forall q v,
    In (q, v) out <->
    (exists r, In r (all_rows nodes) /\ page_id r = q) /\
    v = count_sum q (all_rows nodes).
Proof.
  unfold plot_access_stats. fold (all_rows nodes).
  intros [_ [Hperm _]] q v.
  rewrite <- list_elem_of_In, Hperm, elem_of_map_to_list.
  rewrite groupby_sum_lookup, <- filter_is_page_cons.
  destruct (List.filter (is_page q) (all_rows nodes)) as [|r0 rest].
  - split; [discriminate |]. now intros [(? & ? & ?) _].
  - split.
    + intros [= <-]. split; [eauto | reflexivity].
    + now intros [_ ->].
Qed.



End MonitoringSpec.

Section StartupFigure.

Variable hash : string -> Z.

Implicit Types (pages : list (string * string)).

(** X16: the figure built at start-up. [MemoryManagerGUI.__init__] builds
    the monitoring tab once, from the cluster as the module's loop left
    it and before any lookup is made; no handler draws it again. Called
    on the cluster after the loop, run on any non-empty list of pairs,
    [plot_access_stats] has a figure to draw, and every figure it can
    draw has one bar for each stored identifier, all of height 0. *)
Theorem startup_figure_is_flat pages :
  pages <> [] ->
  exists nodes1 oks,
    distribute hash nodes_init pages = Some (nodes1, oks) /\
    (exists out, plot_access_stats nodes1 out) /\
    (forall out, plot_access_stats nodes1 out ->
       forall q v,
         In (q, v) out <->
         (exists r, In r (all_rows nodes1) /\ page_id r = q) /\ v = 0).
Proof.
  intros Hne.
  destruct (distribute_total hash nodes_init pages eq_refl)
    as (nodes1 & oks & Hd).
  exists nodes1, oks. split; [exact Hd |]. split.
  - destruct (sort_values_exists (groupby_sum (all_rows nodes1))) as [out Hout].
    exists out. split; [| exact Hout].
    exact (distribute_stores_first hash pages nodes1 oks Hne Hd).
  - intros out Hplot q v.
    rewrite (plot_access_stats_entries nodes1 out Hplot q v).
    now rewrite (count_sum_zero q _ (distribute_fresh_counts hash pages nodes1 oks Hd)).
Qed.

End StartupFigure.

(** * The further statements on concrete runs *)

Lemma nodes_loaded_run :
  distribute hash_sum nodes_init pages
  = Some (nodes_loaded,
          [true; true; true; true; true; true; true; true; true; false]).
Proof. reflexivity. Qed.

Lemma nodes_loaded_routed : routed hash_sum nodes_loaded.
Proof.
  exact (distribute_routed hash_sum pages nodes_init nodes_loaded _
           (nodes_init_routed hash_sum) nodes_loaded_run).
Qed.

Lemma nodes_loaded_within : Forall within_capacity nodes_loaded.
Proof. repeat constructor; discriminate. Qed.

Lemma pages_nonempty : pages <> [].
Proof. discriminate. Qed.

Lemma scan_is_routed_lookup_witness :
  length nodes_loaded = 3%nat /\
  routed hash_sum nodes_loaded /\
  exists n,
    nodes_loaded !! Z.to_nat (hash_sum "page_4" `mod` 3) = Some n /\
    gui_access_page nodes_loaded "page_4"
    = (<[Z.to_nat (hash_sum "page_4" `mod` 3)
         := fst (access_page n "page_4")]> nodes_loaded,
       match snd (access_page n "page_4") with
       | Some d => Found (node_id n) d
       | None => PageFault
       end).
Proof.
  split; [reflexivity |]. split; [exact nodes_loaded_routed |].
  exact (scan_is_routed_lookup hash_sum nodes_loaded "page_4"
           eq_refl nodes_loaded_routed).
Defined.

Lemma allocate_then_lookup_witness :
  length nodes_loaded = 3%nat /\
  routed hash_sum nodes_loaded /\
  exists n nodes' ok,
    nodes_loaded !! Z.to_nat (hash_sum "page_9" `mod` 3) = Some n /\
    distribute_page hash_sum nodes_loaded "page_9" "data_9"
      = Some (nodes', ok) /\
    (forall q, q <> "page_9"%string ->
       snd (gui_access_page nodes' q) = snd (gui_access_page nodes_loaded q)) /\
    (forall nid d,
       snd (gui_access_page nodes_loaded "page_9") = Found nid d ->
       snd (gui_access_page nodes' "page_9") = Found nid d) /\
    (snd (gui_access_page nodes_loaded "page_9") = PageFault ->
       snd (gui_access_page nodes' "page_9")
       = if ok then Found (node_id n) "data_9" else PageFault).
Proof.
  split; [reflexivity |]. split; [exact nodes_loaded_routed |].
  exact (allocate_then_lookup hash_sum nodes_loaded "page_9" "data_9"
           eq_refl nodes_loaded_routed).
Defined.

Lemma distribute_first_come_first_served_witness :
  length nodes_init = 3%nat /\
  exists nodes' oks,
    distribute hash_sum nodes_init pages = Some (nodes', oks) /\
    (forall (i : nat) n, nodes_init !! i = Some n ->
       exists n', nodes' !! i = Some n' /\
         memory n' = memory n ++
           List.map new_row
             (take (Z.to_nat (memory_size n - len n))
                   (List.filter (sent_to hash_sum i) pages))) /\
    (forall (j : nat) p, pages !! j = Some p ->
       exists n,
         nodes_init !! Z.to_nat (hash_sum (fst p) `mod` 3) = Some n /\
         oks !! j
         = Some (len n
                 + Z.of_nat (length (List.filter
                                       (sent_to hash_sum
                                          (Z.to_nat (hash_sum (fst p) `mod` 3)))
                                       (take j pages)))
                 <? memory_size n)).
Proof.
  split; [reflexivity |].
  exact (distribute_first_come_first_served hash_sum nodes_init pages eq_refl).
Defined.

Lemma stored_pages_are_kept_witness :
  length nodes_loaded = 3%nat /\
  exists nodes',
    run hash_sum nodes_loaded calls_sample = Some nodes' /\
    forall (i : nat) n, nodes_loaded !! i = Some n ->
      exists n',
        nodes' !! i = Some n' /\
        node_id n' = node_id n /\
        memory_size n' = memory_size n /\
        forall (j : nat) r, memory n !! j = Some r ->
          exists r', memory n' !! j = Some r' /\
            page_id r' = page_id r /\ data r' = data r /\
            (int64_min <= access_count r ->
             access_count r + lookups_in calls_sample <= int64_max ->
             access_count r <= access_count r'
             <= access_count r + lookups_in calls_sample).
Proof.
  split; [reflexivity |].
  exact (stored_pages_are_kept hash_sum nodes_loaded calls_sample eq_refl).
Defined.

Lemma total_rows_bounded_witness :
  length nodes_init = 3%nat /\
  Forall within_capacity nodes_init /\
  exists nodes',
    run hash_sum nodes_init calls_sample = Some nodes' /\
    Z.of_nat (length (all_rows nodes'))
    <= foldr Z.add 0 (List.map memory_size nodes_init).
Proof.
  split; [reflexivity |]. split; [exact nodes_init_within |].
  exact (total_rows_bounded hash_sum nodes_init calls_sample
           eq_refl nodes_init_within).
Defined.

Lemma nodes_loaded_int64 : int64_counts nodes_loaded.
Proof.
  exact (distribute_int64_counts hash_sum pages nodes_loaded _ nodes_loaded_run).
Qed.

Lemma lookups_are_counted_witness :
  length nodes_loaded = 3%nat /\
  routed hash_sum nodes_loaded /\
  int64_counts nodes_loaded /\
  exists nodes',
    run hash_sum nodes_loaded (List.map Access lookups_sample) = Some nodes' /\
    List.map node_id nodes' = List.map node_id nodes_loaded /\
    List.map memory_size nodes' = List.map memory_size nodes_loaded /\
    List.map memory nodes'
    = List.map
        (fun n =>
           List.map
             (fun r => mkPageRecord (page_id r) (data r)
                         (wrap64 (access_count r
                                  + occurrences (page_id r) lookups_sample)))
             (memory n))
        nodes_loaded /\
    (forall (i : nat) n r,
       nodes_loaded !! i = Some n -> In r (memory n) ->
       access_count r + occurrences (page_id r) lookups_sample <= int64_max ->
       wrap64 (access_count r + occurrences (page_id r) lookups_sample)
       = access_count r + occurrences (page_id r) lookups_sample).
Proof.
  split; [reflexivity |]. split; [exact nodes_loaded_routed |].
  split; [exact nodes_loaded_int64 |].
  exact (lookups_are_counted hash_sum nodes_loaded lookups_sample
           eq_refl nodes_loaded_routed nodes_loaded_int64).
Defined.

Lemma cipher_sample_bytes : Forall is_byte cipher_sample.
Proof. repeat constructor; discriminate. Qed.

Lemma encrypt_decrypt_witness :
  Forall is_byte cipher_sample /\
  0 <= default_key <= 255 /\
  decrypt cipher_sample default_key = Some text_sample /\
  encrypt text_sample default_key = Some cipher_sample.
Proof.
  assert (Hk : 0 <= default_key <= 255) by (split; discriminate).
  assert (Hd : decrypt cipher_sample default_key = Some text_sample)
    by reflexivity.
  split; [exact cipher_sample_bytes |]. split; [exact Hk |].
  split; [exact Hd |].
  exact (encrypt_decrypt cipher_sample default_key text_sample
           cipher_sample_bytes Hk Hd).
Defined.

Lemma text_surrogate_points : Forall code_point text_surrogate.
Proof. repeat constructor; discriminate. Qed.

(** C9 fails as stated: the Python text [text_surrogate] has a lone
    surrogate, [encrypt] raises on it, and so there is no cipher text
    for [decrypt] to turn back into the text. *)
Lemma round_trip_fails_on_surrogate :
  Forall code_point text_surrogate /\
  0 <= default_key <= 255 /\
  encrypt text_surrogate default_key = None /\
  ~ (exists encrypted,
       encrypt text_surrogate default_key = Some encrypted /\
       decrypt encrypted default_key = Some text_surrogate).
Proof.
  split; [exact text_surrogate_points |].
  split; [split; discriminate |].
  split; [reflexivity |].
  intros (encrypted & He & _). discriminate He.
Qed.

Lemma encrypt_raises_iff_surrogate_witness :
  Forall code_point text_surrogate /\
  0 <= default_key <= 255 /\
  (encrypt text_surrogate default_key = None <->
   Exists (fun c => surrogate c = true) text_surrogate) /\
  (encrypt text_surrogate default_key <> None <->
   Forall scalar text_surrogate).
Proof.
  assert (Hk : 0 <= default_key <= 255) by (split; discriminate).
  split; [exact text_surrogate_points |]. split; [exact Hk |].
  exact (encrypt_raises_iff_surrogate text_surrogate default_key
           text_surrogate_points Hk).
Defined.

Lemma encrypt_shape_witness :
  encrypt text_sample default_key = Some cipher_sample /\
  exists data_bytes,
    str_encode text_sample = Some data_bytes /\
    length cipher_sample = length data_bytes /\
    (length text_sample <= length cipher_sample <= 4 * length text_sample)%nat /\
    (default_key <> 0 ->
     forall (i : nat) b c,
       data_bytes !! i = Some b -> cipher_sample !! i = Some c -> c <> b) /\
    (default_key = 0 -> cipher_sample = data_bytes).
Proof.
  assert (He : encrypt text_sample default_key = Some cipher_sample)
    by reflexivity.
  split; [exact He |].
  exact (encrypt_shape text_sample default_key cipher_sample He).
Defined.


Lemma startup_figure_is_flat_witness :
  pages <> [] /\
  exists nodes1 oks,
    distribute hash_sum nodes_init pages = Some (nodes1, oks) /\
    (exists out, plot_access_stats nodes1 out) /\
    (forall out, plot_access_stats nodes1 out ->
       forall q v,
         In (q, v) out <->
         (exists r, In r (all_rows nodes1) /\ page_id r = q) /\ v = 0).
Proof.
  split; [exact pages_nonempty |].
  exact (startup_figure_is_flat hash_sum pages pages_nonempty).
Defined.
